(** * Race analysis pipeline of [modal_app.py]

    A shallow embedding of the three computation stages of the betting
    application,

      - [process_race_data]               (race summary),
      - [generate_betting_advice]         (per-horse recommendation),
      - [analyze_historical_performance]  (per-horse history),

    together with the properties their specification states.

    Modelling conventions.
      - A Python dict that is read by the code (a race, a horse, a result
        entry) is a record with one [option] field per key the code looks
        up: [None] is an absent key.  [d[k]] is [Py.subscript] (raises
        [KeyError]), [d.get(k, v)] is [Py.get].
      - A Python dict that is built by the code is a [gmap string value].
      - Exceptions are the error monad [Py.exc]; the global numpy random
        state is threaded explicitly through [generate_betting_advice].
      - Python floats are modelled by exact rationals [Q]: rounding of
        binary64 arithmetic is not part of the model.  Numeric results are
        therefore compared with [==] ([Qeq]). *)

From Stdlib Require Import ZArith QArith Qround Qabs String List Lia Lqa.
From stdpp Require Import base option list gmap strings pretty.

Open Scope Q_scope.
Open Scope string_scope.
Open Scope list_scope.

(** ** Fragments of the Python runtime used by the code *)

Module Py.

Inductive exn : Type :=
| KeyError (key : string).

(** Outcome of a computation that may raise. *)
Inductive exc (A : Type) : Type :=
| Return (a : A)
| Raise (e : exn).
Arguments Return {A} a.
Arguments Raise {A} e.

#[global] Instance exc_ret : MRet exc := λ A a, Return a.
#[global] Instance exc_bind : MBind exc := λ A B f m,
  match m with
  | Return a => f a
  | Raise e => Raise e
  end.
#[global] Instance exc_fmap : FMap exc := λ A B f m,
  match m with
  | Return a => Return (f a)
  | Raise e => Raise e
  end.

(** [d[key]]: the value stored under [key], [KeyError] when absent. *)
Definition subscript {A} (key : string) (field : option A) : exc A :=
  match field with
  | Some v => Return v
  | None => Raise (KeyError key)
  end.

(** [d.get(key, dflt)]. *)
Definition get {A} (field : option A) (dflt : A) : A :=
  match field with
  | Some v => v
  | None => dflt
  end.

(** Truth value of a list: non-empty. *)
Definition truthy {A} (l : list A) : bool :=
  match l with
  | [] => false
  | _ :: _ => true
  end.

Definition Qsum (l : list Q) : Q := foldr Qplus 0 l.

Definition of_nat (n : nat) : Q := inject_Z (Z.of_nat n).

(** [np.mean] of a one-dimensional sequence.  On the empty sequence numpy
    yields nan; no call site reaches it with an empty list (the value here
    is then [0], as [x / 0 == 0] in [Q]). *)
Definition np_mean (l : list Q) : Q := Qsum l / of_nat (length l).

(** [l[-n:]]. *)
Definition slice_last {A} (n : nat) (l : list A) : list A :=
  drop (length l - n) l.

(** [x > y] on numbers. *)
Definition gt (x y : Q) : bool := negb (Qle_bool x y).

(** Rounding to the nearest integer, ties to even. *)
Definition round_half_even (q : Q) : Z :=
  let f := Qfloor q in
  match Qcompare (q - inject_Z f) (1 # 2) with
  | Lt => f
  | Gt => (f + 1)%Z
  | Eq => if Z.even f then f else (f + 1)%Z
  end.

Definition two_digits (n : Z) : string :=
  if (n <? 10)%Z then "0" +:+ pretty n else pretty n.

(** The format specification [:.2f]. *)
Definition format_2f (q : Q) : string :=
  let n := round_half_even (Qabs q * 100) in
  (if gt 0 q then "-" else "")
    +:+ pretty (n / 100)%Z +:+ "." +:+ two_digits (n mod 100)%Z.

End Py.

Import Py.

(** ** Data model *)

(** An entry of a race's ['horses'] list. *)
Module Horse.
Record t : Type := make {
  id : option string;
  name : option string;
  odds : option Q;
  weight : option Q
}.
End Horse.

(** An entry of a race's ['results'] list. *)
Module Result.
Record t : Type := make {
  id : option string;
  name : option string;
  position : option Z
}.
End Result.

Module Race.
Record t : Type := make {
  surface : option string;
  horses : option (list Horse.t);
  results : option (list Result.t)
}.
End Race.

(** Values stored in the dicts the code builds. *)
Inductive value : Type :=
| VStr (s : string)
| VInt (z : Z)
| VFloat (q : Q)
| VList (l : list Z).

(** The dict returned by [process_race_data]: the two keys are always
    present, ['analysis'] is itself a dict. *)
Record summary : Type := {
  analysis : gmap string value;
  processed_data : Race.t
}.

(** ** process_race_data *)

Definition process_race_data (race_data : Race.t) : exc summary :=
  let horses := get (Race.horses race_data) [] in
  if truthy horses then
    odds ← mapM (λ h, subscript "odds" (Horse.odds h)) horses;
    weights ← mapM (λ h, subscript "weight" (Horse.weight h)) horses;
    let avg_odds := np_mean odds in
    let avg_weight := np_mean weights in
    mret {| analysis :=
              {[ "total_horses" := VInt (Z.of_nat (length horses));
                 "average_odds" := VFloat avg_odds;
                 "average_weight" := VFloat avg_weight;
                 "race_surface" := VStr (get (Race.surface race_data) "Unknown") ]};
            processed_data := race_data |}
  else
    mret {| analysis := ∅; processed_data := race_data |}.

(** ** generate_betting_advice *)

(** The three-way threshold of the loop body. *)
Definition recommendation (confidence : Q) : string :=
  if gt confidence 0.7 then "Win"
  else if gt confidence 0.4 then "Place"
  else "No Bet".

(** The dict appended for one horse, once its confidence is drawn.  The
    keys are evaluated in source order, so the first absent one among
    ['id'], ['name'], ['odds'] is the one reported. *)
Definition advice_entry (horse : Horse.t) (confidence : Q)
  : exc (gmap string value) :=
  let recommendation := recommendation confidence in
  horseId ← subscript "id" (Horse.id horse);
  horseName ← subscript "name" (Horse.name horse);
  let reasoning :=
    "Based on historical performance analysis (confidence: "
      +:+ format_2f confidence +:+ ")" in
  odds ← subscript "odds" (Horse.odds horse);
  mret ({[ "horseId" := VStr horseId;
           "horseName" := VStr horseName;
           "confidence" := VFloat confidence;
           "recommendedBet" := VStr recommendation;
           "reasoning" := VStr reasoning;
           "expectedOdds" := VFloat (odds * (1 + (1 - confidence) * 0.5)) ]}
        : gmap string value).

Section Advice.

(** The random source: [G] is the state of numpy's global generator and
    [uniform lo hi] is [np.random.uniform(lo, hi)], which returns a
    sample and advances the state. *)
Variable G : Type.
Variable uniform : Q → Q → G → Q * G.

(** The [for horse in horses] loop; [advice] is the list built so far.
    An exception leaves the generator advanced by the draws made. *)
Fixpoint advice_loop (horses : list Horse.t) (advice : list (gmap string value))
    (g : G) : exc (list (gmap string value)) * G :=
  match horses with
  | [] => (Return advice, g)
  | horse :: horses' =>
      let (confidence, g') := uniform 0.1 0.9 g in
      match advice_entry horse confidence with
      | Return entry => advice_loop horses' (advice ++ [entry]) g'
      | Raise e => (Raise e, g')
      end
  end.

Definition generate_betting_advice (race_data : Race.t)
    (historical_data : option (list Race.t)) (g : G)
  : exc (list (gmap string value)) * G :=
  let horses := get (Race.horses race_data) [] in
  advice_loop horses [] g.

(** The first [n] samples the generator yields from state [g], and the
    state after them. *)
Fixpoint draws (n : nat) (g : G) : list Q :=
  match n with
  | O => []
  | S n' => let (c, g') := uniform 0.1 0.9 g in c :: draws n' g'
  end.

Fixpoint advance (n : nat) (g : G) : G :=
  match n with
  | O => g
  | S n' => advance n' (uniform 0.1 0.9 g).2
  end.

End Advice.

Arguments advice_loop {G} uniform horses advice g.
Arguments generate_betting_advice {G} uniform race_data historical_data g.
Arguments draws {G} uniform n g.
Arguments advance {G} uniform n g.

(** A scripted random source for examples: the state is the list of the
    samples still to come ([lo] once it is used up). *)
Definition scripted (lo hi : Q) (g : list Q) : Q * list Q :=
  match g with
  | [] => (lo, [])
  | c :: g' => (c, g')
  end.

(** ** analyze_historical_performance *)

(** [any(h['id'] == horse_id for h in results)]: stops at the first match,
    so entries after it are not looked at. *)
Fixpoint any_id (horse_id : string) (results : list Result.t) : exc bool :=
  match results with
  | [] => Return false
  | h :: results' =>
      i ← subscript "id" (Result.id h);
      if String.eqb i horse_id then Return true else any_id horse_id results'
  end.

(** [[r for r in races if any(...)]]. *)
Fixpoint horse_races_of (horse_id : string) (races : list Race.t)
  : exc (list Race.t) :=
  match races with
  | [] => Return []
  | r :: races' =>
      b ← any_id horse_id (get (Race.results r) []);
      rest ← horse_races_of horse_id races';
      mret (if (b : bool) then r :: rest else rest)
  end.

(** The inner loop over one race's results, appending to [positions]. *)
Fixpoint collect_race (horse_id : string) (results : list Result.t)
    (positions : list Z) : exc (list Z) :=
  match results with
  | [] => Return positions
  | horse :: results' =>
      i ← subscript "id" (Result.id horse);
      if String.eqb i horse_id
      then collect_race horse_id results' (positions ++ [get (Result.position horse) 0%Z])
      else collect_race horse_id results' positions
  end.

(** The outer loop over the horse's races. *)
Fixpoint collect_positions (horse_id : string) (horse_races : list Race.t)
    (positions : list Z) : exc (list Z) :=
  match horse_races with
  | [] => Return positions
  | race :: horse_races' =>
      positions' ← collect_race horse_id (get (Race.results race) []) positions;
      collect_positions horse_id horse_races' positions'
  end.

Definition analyze_historical_performance (horse_id : string)
    (races : list Race.t) : exc (gmap string value) :=
  horse_races ← horse_races_of horse_id races;
  if negb (truthy horse_races) then
    mret ({[ "horse_id" := VStr horse_id;
             "performance" := VStr "No historical data" ]} : gmap string value)
  else
    positions ← collect_positions horse_id horse_races [];
    let avg_position :=
      if truthy positions then np_mean (inject_Z <$> positions) else 0 in
    let win_rate :=
      if truthy positions
      then of_nat (length (filter (λ p, p = 1%Z) positions)) / of_nat (length positions)
      else 0 in
    mret ({[ "horse_id" := VStr horse_id;
             "total_races" := VInt (Z.of_nat (length horse_races));
             "average_position" := VFloat avg_position;
             "win_rate" := VFloat win_rate;
             "recent_form" :=
               VList (if (5 <=? length positions)%nat
                      then slice_last 5 positions else positions) ]}
          : gmap string value).

(** ** Vocabulary of the specification *)

(** A horse that carries the three keys the advice loop subscripts. *)
Definition complete (h : Horse.t) : Prop :=
  is_Some (Horse.id h) ∧ is_Some (Horse.name h) ∧ is_Some (Horse.odds h).

(** A horse that lacks one of them. *)
Definition lacks_required (h : Horse.t) : Prop :=
  Horse.id h = None ∨ Horse.name h = None ∨ Horse.odds h = None.

(** The first key, in the order the loop body reads them, that a horse
    lacks. *)
Definition first_missing (h : Horse.t) : option string :=
  match Horse.id h, Horse.name h, Horse.odds h with
  | None, _, _ => Some "id"
  | Some _, None, _ => Some "name"
  | Some _, Some _, None => Some "odds"
  | Some _, Some _, Some _ => None
  end.

(** The entries of a race's ['results'], none when the key is absent. *)
Definition results_of (r : Race.t) : list Result.t := default [] (Race.results r).

(** A result entry whose id is [horse_id]. *)
Definition has_id (horse_id : string) (e : Result.t) : Prop :=
  Result.id e = Some horse_id.

#[global] Instance has_id_dec horse_id e : Decision (has_id horse_id e).
Proof. unfold has_id. apply _. Defined.

(** A race whose results contain an entry with that id. *)
Definition matches (horse_id : string) (r : Race.t) : Prop :=
  Exists (has_id horse_id) (results_of r).

#[global] Instance matches_dec horse_id r : Decision (matches horse_id r).
Proof. unfold matches. apply _. Defined.

Definition matching_races (horse_id : string) (races : list Race.t) : list Race.t :=
  filter (matches horse_id) races.

(** The position an entry stands for: its ['position'], 0 when it has none. *)
Definition entry_position (e : Result.t) : Z := default 0%Z (Result.position e).

(** Every position reported for [horse_id], race by race and entry by
    entry, in the order of the corpus. *)
Definition positions_of (horse_id : string) (races : list Race.t) : list Z :=
  r ← matching_races horse_id races;
  entry_position <$> filter (has_id horse_id) (results_of r).

(** Every result entry of every race carries an ['id']. *)
Definition all_ids (races : list Race.t) : Prop :=
  Forall (λ r, Forall (λ e, is_Some (Result.id e)) (results_of r)) races.

(** ** Sample data *)

(** The race of the specification's worked example. *)
Definition alpha : Horse.t := Horse.make (Some "h1") (Some "Alpha") (Some 3.0) (Some 120).
Definition beta : Horse.t := Horse.make (Some "h2") (Some "Beta") (Some 5.0) (Some 115).
Definition turf_race : Race.t := Race.make (Some "Turf") (Some [alpha; beta]) None.

Definition empty_race : Race.t := Race.make (Some "Dirt") (Some []) None.

(** The advice for [turf_race] when the samples drawn are 0.7 and 0.4. *)
Definition alpha_advice : gmap string value :=
  {[ "horseId" := VStr "h1";
     "horseName" := VStr "Alpha";
     "confidence" := VFloat 0.7;
     "recommendedBet" := VStr "Place";
     "reasoning" := VStr "Based on historical performance analysis (confidence: 0.70)";
     "expectedOdds" := VFloat (3.0 * (1 + (1 - 0.7) * 0.5)) ]}.

(** The advice for [alpha] at a confidence of 0.4. *)
Definition alpha_cautious : gmap string value :=
  {[ "horseId" := VStr "h1";
     "horseName" := VStr "Alpha";
     "confidence" := VFloat 0.4;
     "recommendedBet" := VStr "No Bet";
     "reasoning" := VStr "Based on historical performance analysis (confidence: 0.40)";
     "expectedOdds" := VFloat (3.0 * (1 + (1 - 0.4) * 0.5)) ]}.

Definition beta_advice : gmap string value :=
  {[ "horseId" := VStr "h2";
     "horseName" := VStr "Beta";
     "confidence" := VFloat 0.4;
     "recommendedBet" := VStr "No Bet";
     "reasoning" := VStr "Based on historical performance analysis (confidence: 0.40)";
     "expectedOdds" := VFloat (5.0 * (1 + (1 - 0.4) * 0.5)) ]}.

(** A horse without weight, and one without name. *)
Definition unweighed : Horse.t := Horse.make (Some "h3") (Some "Gamma") (Some 7.5) None.
Definition unnamed : Horse.t := Horse.make (Some "h4") None (Some 2.0) (Some 118).

Definition weightless_race : Race.t := Race.make None (Some [alpha; unweighed]) None.
Definition nameless_race : Race.t := Race.make None (Some [alpha; unnamed; beta]) None.

Definition unweighed_advice : gmap string value :=
  {[ "horseId" := VStr "h3";
     "horseName" := VStr "Gamma";
     "confidence" := VFloat 0.8;
     "recommendedBet" := VStr "Win";
     "reasoning" := VStr "Based on historical performance analysis (confidence: 0.80)";
     "expectedOdds" := VFloat (7.5 * (1 + (1 - 0.8) * 0.5)) ]}.

(** Result entries and races for the history of a horse. *)
Definition placed (i : string) (p : Z) : Result.t := Result.make (Some i) None (Some p).
Definition ran (l : list Result.t) : Race.t := Race.make None None (Some l).

(** The corpus of the specification's worked example. *)
Definition two_races : list Race.t := [ran [placed "h1" 1]; ran [placed "h1" 3]].

(** A corpus in which "h1" occurs as a name only, once without position,
    and in which one race has no results at all. *)
Definition other_races : list Race.t :=
  [ ran [Result.make (Some "h2") (Some "h1") (Some 1%Z)];
    Race.make (Some "Turf") None None;
    ran [Result.make (Some "h3") (Some "h1") None] ].

(** A corpus with entries that have no position. *)
Definition unplaced_races : list Race.t :=
  [ ran [Result.make (Some "h1") None None; placed "h2" 1];
    Race.make None None None;
    ran [placed "h1" 2] ].

(** Corpora with an entry that has no id: after a matching entry, alone,
    and before a matching entry. *)
Definition anonymous_after : list Race.t :=
  [ran [placed "h1" 1; Result.make None None (Some 2%Z)]].
Definition anonymous_alone : list Race.t :=
  [ran [Result.make None (Some "h1") (Some 2%Z)]].
Definition anonymous_before : list Race.t :=
  [ran [Result.make None None None; placed "h1" 1]].

(** A horse without odds, and a race in which a horse without weight
    stands before it. *)
Definition oddsless : Horse.t := Horse.make (Some "h5") (Some "Delta") None (Some 121).
Definition mixed_race : Race.t :=
  Race.make (Some "Turf") (Some [unweighed; oddsless; alpha]) None.


(** Two races that share out the horses of [turf_race]. *)
Definition alpha_race : Race.t := Race.make (Some "Turf") (Some [alpha]) None.
Definition beta_race : Race.t := Race.make (Some "Turf") (Some [beta]) None.

(** A longer history of "h1": two older races and three newer ones, the
    last of which lists the horse twice. *)
Definition older_races : list Race.t :=
  [ran [placed "h1" 7; placed "h2" 1]; ran [placed "h1" 1]].
Definition newer_races : list Race.t :=
  [ ran [placed "h1" 2; placed "h2" 1];
    ran [placed "h2" 1; placed "h1" 4];
    ran [placed "h1" 3; placed "h1" 5; placed "h1" 6] ].

(** ** fetch_hkjc_data *)

(** The function talks to [requests], [bs4] and [re].  What these return
    is not part of the repository, so they are parameters of the model:
    the function is embedded as its own control flow over their answers.
    The whole body stands in a [try] whose handler catches every
    [Exception] and only uses [str(e)]; a call that may fail is therefore
    an [attempt].  [list(set(l))] lists the distinct elements of [l] in an
    order Python does not fix: it is modelled by the set of its
    elements. *)
Module Gateway.

Inductive attempt (A : Type) : Type :=
| Got (a : A)
| Threw (message : string).
Arguments Got {A} a.
Arguments Threw {A} message.

(** The two attributes of a [requests] response the code reads. *)
Record response : Type := {
  status_code : Z;
  text : string
}.

(** Values stored under ['findings']. *)
Inductive finding : Type :=
| FBool (b : bool)
| FStr (s : string)
| FUrls (urls : gset string).

(** The dict returned: ['status'], ['message'] and ['findings'] are always
    there, ['recommendation'] only in the first of the three returns. *)
Record report : Type := {
  status : string;
  message : string;
  findings : gmap string finding;
  recommendation : option string
}.

Definition racing_url : string := "https://racing.hkjc.com/racing/english/index.aspx".

(** [needle in hay] on strings. *)
Fixpoint contains (needle hay : string) : bool :=
  String.prefix needle hay
  || match hay with
     | EmptyString => false
     | String _ hay' => contains needle hay'
     end.

(** Truth value of a string: non-empty. *)
Definition nonempty (s : string) : bool :=
  match s with
  | EmptyString => false
  | String _ _ => true
  end.

Section Fetch.

(** [requests.get(url, timeout=t)]. *)
Variable requests_get : string → Z → attempt response.
(** [BeautifulSoup(text, 'html.parser')] and its [find_all] calls: the
    [.string] of every script element, [None] for an element that has no
    single string. *)
Variable script_strings : string → attempt (list (option string)).
(** [re.findall(pattern, s)] for the url pattern of the source. *)
Variable findall : string → list string.
(** [s.lower()]. *)
Variable lower : string → string.

(** The condition of the comprehension that filters the urls. *)
Definition names_api (url : string) : bool :=
  contains "api" (lower url) || contains "json" (lower url).

(** The [for script in scripts] loop, extending [api_endpoints]. *)
Fixpoint collect_endpoints (scripts : list (option string))
    (api_endpoints : list string) : list string :=
  match scripts with
  | [] => api_endpoints
  | script :: scripts' =>
      match script with
      | Some s =>
          if nonempty s
          then collect_endpoints scripts'
                 (api_endpoints ++ List.filter names_api (findall s))
          else collect_endpoints scripts' api_endpoints
      | None => collect_endpoints scripts' api_endpoints
      end
  end.

Definition error_report (e : string) : report :=
  {| status := "error";
     message := "Error accessing HKJC: " +:+ e;
     findings := ∅;
     recommendation := None |}.

Definition fetch_hkjc_data (date_range : option string) : report :=
  match requests_get racing_url 10 with
  | Threw e => error_report e
  | Got response =>
      if (status_code response =? 200)%Z then
        match script_strings (text response) with
        | Threw e => error_report e
        | Got scripts =>
            let api_endpoints := collect_endpoints scripts [] in
            {| status := "investigation_complete";
               message := "HKJC site accessible but requires authentication for detailed data";
               findings :=
                 {[ "main_site_accessible" := FBool true;
                    "corporate_login_required" := FBool true;
                    "potential_api_endpoints" :=
                      FUrls (list_to_set (take 5 api_endpoints));
                    "data_format" := FStr "HTML_scraping_possible";
                    "authentication_needed" := FBool true ]};
               recommendation :=
                 Some "Use manual data upload or implement OAuth flow for HKJC API access" |}
        end
      else
        {| status := "access_denied";
           message := "HKJC site returned status " +:+ pretty (status_code response);
           findings := ∅;
           recommendation := None |}
  end.

End Fetch.

End Gateway.

(** A page for examples: three script elements, the second without
    string, and a toy scanner that finds the urls of the first and of the
    third. *)
Definition sample_get (url : string) (timeout : Z) : Gateway.attempt Gateway.response :=
  Gateway.Got {| Gateway.status_code := 200; Gateway.text := "page" |}.
Definition sample_scripts (text : string) : Gateway.attempt (list (option string)) :=
  Gateway.Got [Some "first"; None; Some ""; Some "third"].
Definition sample_findall (s : string) : list string :=
  if String.eqb s "first"
  then ["https://a.hk/api/1"; "https://a.hk/img.png"; "https://a.hk/api/1";
        "https://a.hk/api/1"]
  else if String.eqb s "third"
  then ["https://a.hk/api/1"; "https://a.hk/api/1"; "https://b.hk/data.json";
        "https://c.hk/api/2"]
  else [].
Definition sample_lower (s : string) : string := s.

(** The same site refusing the request. *)
Definition sample_denied (url : string) (timeout : Z) : Gateway.attempt Gateway.response :=
  Gateway.Got {| Gateway.status_code := 403; Gateway.text := "" |}.

(** * Properties *)

(** ** The error monad *)

Lemma bind_Return {A B} (f : A → exc B) (a : A) : Return a ≫= f = f a.
Proof. reflexivity. Qed.

Lemma bind_Raise {A B} (f : A → exc B) (e : exn) : Raise e ≫= f = Raise e.
Proof. reflexivity. Qed.

Lemma bind_Return_inv {A B} (f : A → exc B) (m : exc A) (b : B) :
  m ≫= f = Return b → ∃ a, m = Return a ∧ f a = Return b.
Proof. destruct m as [a|e]; [eauto | discriminate]. Qed.

Lemma subscript_Some {A} key (field : option A) v :
  field = Some v → subscript key field = Return v.
Proof. by intros ->. Qed.

Lemma subscript_Return {A} key (field : option A) v :
  subscript key field = Return v ↔ field = Some v.
Proof. destruct field; simpl; split; congruence. Qed.

Lemma subscript_Raise {A} key (field : option A) e :
  subscript key field = Raise e ↔ field = None ∧ e = KeyError key.
Proof.
  destruct field; simpl; split; try discriminate.
  - by intros [? _].
  - by intros [= <-].
  - by intros [_ ->].
Qed.

(** A list comprehension [[h[key] for h in l]] succeeds when every element
    carries the key, and yields the stored values in order. *)
Lemma mapM_subscript {A B} key (field : A → option B) (l : list A) :
  Forall (λ h, is_Some (field h)) l →
  mapM (λ h, subscript key (field h)) l = Return (omap field l)
  ∧ length (omap field l) = length l.
Proof.
  induction 1 as [|h l [v Hv] _ [IH1 IH2]]; [done|].
  cbn [mapM omap list_omap]. rewrite Hv. cbn [subscript].
  rewrite bind_Return, IH1, bind_Return. cbn. by rewrite IH2.
Qed.

(** ** Arithmetic mean *)

Lemma of_nat_pos n : (0 < n)%nat → 0 < of_nat n.
Proof.
  intros Hn. unfold of_nat. change 0 with (inject_Z 0).
  rewrite <- Zlt_Qlt. lia.
Qed.

Lemma np_mean_spec (l : list Q) :
  l ≠ [] → np_mean l * of_nat (length l) == Qsum l.
Proof.
  intros Hl. unfold np_mean. field.
  assert (0 < of_nat (length l)) as Hpos.
  { apply of_nat_pos. destruct l; [done | simpl; lia]. }
  intros Hz. rewrite Hz in Hpos. by apply Qlt_irrefl in Hpos.
Qed.

(** ** process_race_data *)

(** C1.  On a race whose list of horses is non-empty and whose horses all
    carry odds and weight, the summary is returned (nothing is raised) and
    its analysis holds the number of horses, the arithmetic mean of their
    odds, the arithmetic mean of their weights and the surface of the race,
    ["Unknown"] when the race has none; the race itself is handed back. *)
Theorem process_race_data_summary (race : Race.t) :
  let horses := get (Race.horses race) [] in
  horses ≠ [] →
  Forall (λ h, is_Some (Horse.odds h) ∧ is_Some (Horse.weight h)) horses →
  ∃ average_odds average_weight,
    process_race_data race =
      Return {| analysis :=
                  {[ "total_horses" := VInt (Z.of_nat (length horses));
                     "average_odds" := VFloat average_odds;
                     "average_weight" := VFloat average_weight;
                     "race_surface" := VStr (default "Unknown" (Race.surface race)) ]};
                processed_data := race |}
    ∧ average_odds == Qsum (omap Horse.odds horses) / of_nat (length horses)
    ∧ average_weight == Qsum (omap Horse.weight horses) / of_nat (length horses).
Proof.
  intros horses Hne Hall. unfold process_race_data. fold horses.
  destruct horses as [|h0 hs] eqn:Hhs; [done|]. cbn [truthy].
  destruct (mapM_subscript "odds" Horse.odds (h0 :: hs)) as [Ho Hlo].
  { eapply Forall_impl; [exact Hall|]. by intros ? [? _]. }
  destruct (mapM_subscript "weight" Horse.weight (h0 :: hs)) as [Hw Hlw].
  { eapply Forall_impl; [exact Hall|]. by intros ? [_ ?]. }
  rewrite Ho, bind_Return, Hw, bind_Return.
  eexists _, _. split; [|split].
  - destruct (Race.surface race); reflexivity.
  - unfold np_mean. by rewrite Hlo.
  - unfold np_mean. by rewrite Hlw.
Qed.

Lemma process_race_data_summary_witness :
  ∃ average_odds average_weight,
    process_race_data turf_race =
      Return {| analysis :=
                  {[ "total_horses" := VInt 2;
                     "average_odds" := VFloat average_odds;
                     "average_weight" := VFloat average_weight;
                     "race_surface" := VStr "Turf" ]};
                processed_data := turf_race |}
    ∧ average_odds == Qsum [3.0; 5.0] / of_nat 2
    ∧ average_weight == Qsum [120; 115] / of_nat 2.
Proof.
  apply (process_race_data_summary turf_race).
  - discriminate.
  - repeat constructor; simpl; eauto.
Defined.

(** The worked example of the specification: two horses on turf. *)
Example process_race_data_turf :
  ∃ average_odds average_weight,
    analysis <$> process_race_data turf_race =
      Return {[ "total_horses" := VInt 2;
                "average_odds" := VFloat average_odds;
                "average_weight" := VFloat average_weight;
                "race_surface" := VStr "Turf" ]}
    ∧ average_odds == 4.0 ∧ average_weight == 117.5.
Proof. eexists _, _. split; [reflexivity|]. split; reflexivity. Qed.

(** C6.  On a race whose list of horses is empty (or absent) nothing is
    raised: the analysis is the empty dict and the processed data is the
    race that was passed in. *)
Theorem process_race_data_empty (race : Race.t) :
  get (Race.horses race) [] = [] →
  process_race_data race = Return {| analysis := ∅; processed_data := race |}.
Proof. intros Hnil. unfold process_race_data. by rewrite Hnil. Qed.

Lemma process_race_data_empty_witness :
  process_race_data empty_race
  = Return {| analysis := ∅; processed_data := empty_race |}.
Proof. apply (process_race_data_empty empty_race). reflexivity. Defined.

(** ** generate_betting_advice *)

Lemma gt_spec (x y : Q) : gt x y = true ↔ y < x.
Proof.
  unfold gt. rewrite negb_true_iff, <- not_true_iff_false, Qle_bool_iff.
  split; [apply Qnot_le_lt | apply Qlt_not_le].
Qed.

Lemma gt_false (x y : Q) : gt x y = false ↔ x <= y.
Proof. unfold gt. by rewrite negb_false_iff, Qle_bool_iff. Qed.

Lemma recommendation_Win c : recommendation c = "Win" ↔ 0.7 < c.
Proof.
  unfold recommendation. destruct (gt c 0.7) eqn:H7.
  { apply gt_spec in H7. done. }
  apply gt_false in H7.
  destruct (gt c 0.4); (split; [discriminate | intros; lra]).
Qed.

Lemma recommendation_Place c : recommendation c = "Place" ↔ 0.4 < c ∧ c <= 0.7.
Proof.
  unfold recommendation. destruct (gt c 0.7) eqn:H7.
  { apply gt_spec in H7. split; [discriminate | intros; lra]. }
  apply gt_false in H7. destruct (gt c 0.4) eqn:H4.
  - apply gt_spec in H4. done.
  - apply gt_false in H4. split; [discriminate | intros; lra].
Qed.

Lemma recommendation_No_Bet c : recommendation c = "No Bet" ↔ c <= 0.4.
Proof.
  unfold recommendation. destruct (gt c 0.7) eqn:H7.
  { apply gt_spec in H7. split; [discriminate | intros; lra]. }
  apply gt_false in H7. destruct (gt c 0.4) eqn:H4.
  - apply gt_spec in H4. split; [discriminate | intros; lra].
  - apply gt_false in H4. done.
Qed.

Lemma complete_first_missing h : complete h ↔ first_missing h = None.
Proof.
  unfold complete, first_missing.
  destruct (Horse.id h), (Horse.name h), (Horse.odds h); split;
    try done; intros (?&?&?); by repeat match goal with H : is_Some None |- _ => destruct H end.
Qed.

(** The dict of a horse that carries the three keys. *)
Lemma advice_entry_Return h c rec :
  advice_entry h c = Return rec ↔
  ∃ i n o, Horse.id h = Some i ∧ Horse.name h = Some n ∧ Horse.odds h = Some o ∧
    rec = {[ "horseId" := VStr i;
             "horseName" := VStr n;
             "confidence" := VFloat c;
             "recommendedBet" := VStr (recommendation c);
             "reasoning" := VStr ("Based on historical performance analysis (confidence: "
                                    +:+ format_2f c +:+ ")");
             "expectedOdds" := VFloat (o * (1 + (1 - c) * 0.5)) ]}.
Proof.
  unfold advice_entry.
  destruct (Horse.id h) as [i|], (Horse.name h) as [n|], (Horse.odds h) as [o|];
    cbn; split; try discriminate.
  - intros [= <-]. by eexists _, _, _.
  - by intros (?&?&?&[= <-]&[= <-]&[= <-]&->).
  - by intros (?&?&?&_&_&?&_).
  - by intros (?&?&?&_&?&_).
  - by intros (?&?&?&_&?&_).
  - by intros (?&?&?&?&_).
  - by intros (?&?&?&?&_).
  - by intros (?&?&?&?&_).
  - by intros (?&?&?&?&_).
Qed.

(** The exception of a horse that lacks one of them. *)
Lemma advice_entry_Raise h c e :
  advice_entry h c = Raise e ↔ ∃ k, first_missing h = Some k ∧ e = KeyError k.
Proof.
  unfold advice_entry, first_missing.
  destruct (Horse.id h) as [i|], (Horse.name h) as [n|], (Horse.odds h) as [o|];
    cbn; split; try discriminate;
    try (intros [= <-]; by eexists); try (by intros (?&[= <-]&->)).
Qed.

Lemma advice_entry_complete h c : complete h → ∃ rec, advice_entry h c = Return rec.
Proof.
  intros ([i Hi]&[n Hn]&[o Ho]). eexists. apply advice_entry_Return. by eexists _, _, _.
Qed.

Section AdviceProperties.

Context {G : Type} (uniform : Q → Q → G → Q * G).

Local Abbreviation draws := (draws uniform).
Local Abbreviation advance := (advance uniform).
Local Abbreviation advice_loop := (advice_loop uniform).
Local Abbreviation generate_betting_advice := (generate_betting_advice uniform).

Lemma length_draws n g : length (draws n g) = n.
Proof.
  revert g. induction n as [|n IH]; intros g; [done|].
  simpl. destruct (uniform 0.1 0.9 g) as [c g']. simpl. by rewrite IH.
Qed.

(** The loop returns exactly when every horse yields its dict; the dicts
    are appended in the order of the horses, the [i]-th one being built
    from the [i]-th sample, and one sample is consumed per horse. *)
Lemma advice_loop_Return hs acc g recs g' :
  advice_loop hs acc g = (Return recs, g') ↔
  ∃ new, recs = acc ++ new
    ∧ Forall2 (λ hc rec, advice_entry hc.1 hc.2 = Return rec)
              (zip hs (draws (length hs) g)) new
    ∧ g' = advance (length hs) g.
Proof.
  revert acc g. induction hs as [|h hs IH]; intros acc g; simpl.
  - split.
    + intros [= <- <-]. exists []. by rewrite app_nil_r.
    + intros (new & -> & Hnew & ->). inversion Hnew. by rewrite app_nil_r.
  - destruct (uniform 0.1 0.9 g) as [c g1] eqn:Hu. simpl.
    destruct (advice_entry h c) as [entry|e] eqn:He.
    + rewrite IH. split.
      * intros (new & -> & Hnew & ->). exists (entry :: new).
        rewrite <- app_assoc. split; [done|]. split; [|done].
        by constructor.
      * intros (new & -> & Hnew & ->). inversion Hnew as [|? ? ? new' Hhd Htl]; subst.
        simpl in Hhd. rewrite He in Hhd. injection Hhd as <-.
        exists new'. by rewrite <- app_assoc.
    + split; [discriminate|].
      intros (new & _ & Hnew & _). inversion Hnew as [|? ? ? ? Hhd]; subst.
      simpl in Hhd. congruence.
Qed.

(** The loop raises exactly when some horse does: the exception is that of
    the first such horse, raised after the samples for the horses up to and
    including it were drawn. *)
Lemma advice_loop_Raise hs acc g e g' :
  advice_loop hs acc g = (Raise e, g') ↔
  ∃ i h c, hs !! i = Some h ∧ draws (length hs) g !! i = Some c
    ∧ Forall complete (take i hs)
    ∧ advice_entry h c = Raise e
    ∧ g' = advance (S i) g.
Proof.
  revert acc g. induction hs as [|h hs IH]; intros acc g; simpl.
  - split; [discriminate|]. by intros (i & ? & ? & ? & _).
  - destruct (uniform 0.1 0.9 g) as [c g1] eqn:Hu. simpl.
    destruct (advice_entry h c) as [entry|e0] eqn:He.
    + rewrite IH. split.
      * intros (i & h' & c' & Hh & Hc & Hpre & Hr & ->).
        exists (S i), h', c'. simpl. rewrite ?Hu; simpl. repeat split; try done.
        constructor; [|done]. apply complete_first_missing.
        destruct (first_missing h) as [k|] eqn:Hk; [|done].
        assert (advice_entry h c = Raise (KeyError k)) as Hbad
          by (apply advice_entry_Raise; eauto).
        congruence.
      * intros ([|i] & h' & c' & Hh & Hc & Hpre & Hr & ->); simpl in *.
        { injection Hh as <-. injection Hc as <-. congruence. }
        rewrite ?Hu; simpl. exists i, h', c'. repeat split; try done.
        by inversion Hpre.
    + split.
      * intros [= <- <-]. exists 0%nat, h, c. simpl. rewrite ?Hu; simpl.
        repeat split; try done.
      * intros ([|i] & h' & c' & Hh & Hc & Hpre & Hr & ->); simpl in *.
        { injection Hh as <-. injection Hc as <-. rewrite ?Hu; simpl. congruence. }
        inversion Hpre as [|? ? Hcomp _]; subst.
        destruct (advice_entry_complete h c Hcomp). congruence.
Qed.

(** Each returned dict is the one built from the horse at the same index
    and the sample of the same rank. *)
Lemma generate_betting_advice_lookup race hist g recs g' :
  generate_betting_advice race hist g = (Return recs, g') →
  let horses := get (Race.horses race) [] in
  length recs = length horses ∧
  ∀ i rec, recs !! i = Some rec →
    ∃ h c, horses !! i = Some h ∧ draws (length horses) g !! i = Some c
         ∧ advice_entry h c = Return rec.
Proof.
  unfold generate_betting_advice. intros (new & -> & Hnew & _)%advice_loop_Return.
  simpl. split.
  - rewrite <- (Forall2_length _ _ _ Hnew), length_zip, length_draws. lia.
  - intros i rec Hi.
    destruct (Forall2_lookup_r _ _ _ _ _ Hnew Hi) as ([h c] & Hz & He).
    apply lookup_zip_with_Some in Hz as (h' & c' & [= <- <-] & Hh & Hc). eauto.
Qed.

Lemma lacks_required_first_missing h : lacks_required h ↔ is_Some (first_missing h).
Proof.
  unfold lacks_required, first_missing.
  destruct (Horse.id h), (Horse.name h), (Horse.odds h); split;
    try (intros _; by eauto); try (by intros [|[|]]); by intros [].
Qed.

Lemma lacks_required_not_complete h : lacks_required h ↔ ¬ complete h.
Proof.
  rewrite lacks_required_first_missing, complete_first_missing.
  destruct (first_missing h); split; try done; intros; by eauto.
Qed.

(** C2.  In every recommendation that is returned, the confidence is the
    sample drawn for that horse and the recommended bet follows it:
    ["Win"] exactly above 0.7, ["Place"] exactly in (0.4, 0.7], and the
    no-bet label (the string ["No Bet"] in the code) exactly up to 0.4;
    in particular 0.7 gives ["Place"] and 0.4 gives ["No Bet"]. *)
Theorem recommended_bet_thresholds race hist g recs g' (i : nat) rec :
  generate_betting_advice race hist g = (Return recs, g') →
  recs !! i = Some rec →
  ∃ c, draws (length recs) g !! i = Some c
     ∧ rec !! "confidence" = Some (VFloat c)
     ∧ (rec !! "recommendedBet" = Some (VStr "Win") ↔ 0.7 < c)
     ∧ (rec !! "recommendedBet" = Some (VStr "Place") ↔ 0.4 < c ∧ c <= 0.7)
     ∧ (rec !! "recommendedBet" = Some (VStr "No Bet") ↔ c <= 0.4)
     ∧ (c == 0.7 → rec !! "recommendedBet" = Some (VStr "Place"))
     ∧ (c == 0.4 → rec !! "recommendedBet" = Some (VStr "No Bet")).
Proof.
  intros Hrun Hi.
  destruct (generate_betting_advice_lookup _ _ _ _ _ Hrun) as [Hlen Hall].
  destruct (Hall i rec Hi) as (h & c & Hh & Hc & He).
  apply advice_entry_Return in He as (hid & n & o & _ & _ & _ & ->).
  exists c. rewrite Hlen. split; [done|]. split; [reflexivity|].
  assert (∀ s, ({[ "horseId" := VStr hid; "horseName" := VStr n;
                   "confidence" := VFloat c;
                   "recommendedBet" := VStr (recommendation c);
                   "reasoning" := VStr ("Based on historical performance analysis (confidence: "
                                          +:+ format_2f c +:+ ")");
                   "expectedOdds" := VFloat (o * (1 + (1 - c) * 0.5)) ]}
                 : gmap string value) !! "recommendedBet" = Some (VStr s)
               ↔ recommendation c = s) as Hbet.
  { intros s. change (Some (VStr (recommendation c)) = Some (VStr s) ↔ recommendation c = s).
    split; [by intros [= ->] | by intros ->]. }
  rewrite !Hbet.
  rewrite recommendation_Win, recommendation_Place, recommendation_No_Bet.
  repeat split; try tauto; intros; lra.
Qed.

(** C3.  In every recommendation that is returned, the expected odds are
    the odds of the horse times [1 + (1 - c) * 0.5], [c] being the sample
    drawn for it: a confidence of 1 gives back the odds, a confidence of
    0 gives one and a half times the odds. *)
Theorem expected_odds_formula race hist g recs g' (i : nat) rec :
  generate_betting_advice race hist g = (Return recs, g') →
  recs !! i = Some rec →
  ∃ h o c, get (Race.horses race) [] !! i = Some h
     ∧ Horse.odds h = Some o
     ∧ draws (length recs) g !! i = Some c
     ∧ rec !! "expectedOdds" = Some (VFloat (o * (1 + (1 - c) * 0.5)))
     ∧ (c == 1 → o * (1 + (1 - c) * 0.5) == o)
     ∧ (c == 0 → o * (1 + (1 - c) * 0.5) == 1.5 * o).
Proof.
  intros Hrun Hi.
  destruct (generate_betting_advice_lookup _ _ _ _ _ Hrun) as [Hlen Hall].
  destruct (Hall i rec Hi) as (h & c & Hh & Hc & He).
  apply advice_entry_Return in He as (hid & n & o & _ & _ & Ho & ->).
  exists h, o, c. rewrite Hlen. repeat split; try done.
  - intros ->. ring.
  - intros ->. ring.
Qed.

(** C9.  For a horse with positive odds the expected odds do not grow with
    the confidence: the dict built at a larger confidence holds expected
    odds that are at most those built at a smaller one. *)
Theorem expected_odds_monotone h o c1 c2 r1 r2 :
  Horse.odds h = Some o → 0 < o → c1 < c2 →
  advice_entry h c1 = Return r1 →
  advice_entry h c2 = Return r2 →
  ∃ e1 e2, r1 !! "expectedOdds" = Some (VFloat e1)
         ∧ r2 !! "expectedOdds" = Some (VFloat e2)
         ∧ e2 <= e1.
Proof.
  intros Ho Hpos Hlt (?&?&o1&_&_&Ho1&->)%advice_entry_Return
    (?&?&o2&_&_&Ho2&->)%advice_entry_Return.
  rewrite Ho in Ho1, Ho2. injection Ho1 as <-. injection Ho2 as <-.
  eexists _, _. split; [reflexivity|]. split; [reflexivity|]. nra.
Qed.

(** C10.  The historical data is not read: with the same race and the same
    state of the random source, any two values of it (absent ones included)
    give the same outcome and leave the source in the same state. *)
Theorem historical_data_unused race (hist1 hist2 : option (list Race.t)) g :
  generate_betting_advice race hist1 g = generate_betting_advice race hist2 g.
Proof. reflexivity. Qed.

(** C8.  The advice fails exactly when some horse of the race lacks ['id'],
    ['name'] or ['odds'].  The exception is the [KeyError] of the first key
    the first such horse lacks, raised when the loop reaches that horse:
    the horses before it were processed and one sample was drawn for each
    horse up to it.  When every horse carries the three keys (its weight
    is never looked at) the advice returns one recommendation per horse,
    in the order of the horses. *)
Theorem generate_betting_advice_failure race hist g :
  let horses := get (Race.horses race) [] in
  let out := generate_betting_advice race hist g in
  ((∃ e, out.1 = Raise e) ↔ Exists lacks_required horses)
  ∧ (∀ e, out.1 = Raise e →
       ∃ (i : nat) h k, horses !! i = Some h
         ∧ Forall complete (take i horses)
         ∧ first_missing h = Some k
         ∧ e = KeyError k
         ∧ out.2 = advance (S i) g)
  ∧ (Forall complete horses →
       ∃ recs, out = (Return recs, advance (length horses) g)
         ∧ length recs = length horses
         ∧ ∀ (i : nat) h, horses !! i = Some h →
             ∃ rec, recs !! i = Some rec
               ∧ rec !! "horseId" = VStr <$> Horse.id h
               ∧ rec !! "horseName" = VStr <$> Horse.name h).
Proof.
  intros horses out. subst out.
  destruct (generate_betting_advice race hist g) as [[recs|e] g'] eqn:Hout; simpl.
  - (* the advice returned: every horse is complete *)
    destruct (generate_betting_advice_lookup race hist g recs g' Hout) as [Hlen Hlook].
    fold horses in Hlen, Hlook.
    pose proof Hout as (new & _ & _ & ->)%advice_loop_Return. fold horses.
    assert (∀ (i : nat) h, horses !! i = Some h →
              ∃ rec c, recs !! i = Some rec ∧ advice_entry h c = Return rec) as Hentry.
    { intros i h Hh. destruct (lookup_lt_is_Some_2 recs i) as [rec Hrec].
      { rewrite Hlen. by eapply lookup_lt_Some. }
      destruct (Hlook i rec Hrec) as (h' & c & Hh' & _ & He).
      rewrite Hh in Hh'. injection Hh' as <-. eauto. }
    assert (Forall complete horses) as Hcomplete.
    { apply Forall_lookup. intros i h Hh.
      destruct (Hentry i h Hh) as (rec & c & _ & He).
      apply complete_first_missing.
      destruct (first_missing h) as [k|] eqn:Hk; [|done].
      assert (advice_entry h c = Raise (KeyError k)) by (apply advice_entry_Raise; eauto).
      congruence. }
    split; [|split].
    + split; [by intros [? ?]|]. intros (h & Hin & Hlacks)%Exists_exists.
      apply lacks_required_not_complete in Hlacks.
      rewrite Forall_forall in Hcomplete. by destruct Hlacks; apply Hcomplete.
    + intros ? [=].
    + intros _. exists recs. split; [done|]. split; [done|].
      intros i h Hh. destruct (Hentry i h Hh) as (rec & c & Hrec & He).
      exists rec. split; [done|].
      apply advice_entry_Return in He as (hid & n & o & -> & -> & _ & ->).
      split; reflexivity.
  - (* the advice raised: at the first horse that lacks a key *)
    apply advice_loop_Raise in Hout as (i & h & c & Hh & _ & Hpre & Hr & ->).
    fold horses in Hh, Hpre.
    apply advice_entry_Raise in Hr as (k & Hk & ->).
    split; [|split].
    + split; [|by eexists]. intros _.
      apply Exists_exists. exists h. split; [by eapply list_elem_of_lookup_2|].
      apply lacks_required_first_missing. by eexists.
    + intros ? [= <-]. by exists i, h, k.
    + intros Hall. rewrite Forall_lookup in Hall. apply Hall in Hh.
      apply complete_first_missing in Hh. congruence.
Qed.

End AdviceProperties.

(** ** analyze_historical_performance *)

Lemma get_results r : get (Race.results r) [] = results_of r.
Proof. unfold results_of. by destruct (Race.results r). Qed.

(** On entries that all carry an id, [any] decides whether one matches. *)
Lemma any_id_all_ids horse_id (es : list Result.t) :
  Forall (λ e, is_Some (Result.id e)) es →
  any_id horse_id es = Return (bool_decide (Exists (has_id horse_id) es)).
Proof.
  induction 1 as [|e es [i Hi] _ IH]; cbn [any_id].
  - rewrite bool_decide_eq_false_2; [done|]. by intros ?%Exists_nil.
  - rewrite Hi. cbn [subscript]. rewrite ?bind_Return.
    destruct (String.eqb i horse_id) eqn:Heq.
    + apply String.eqb_eq in Heq as ->.
      rewrite bool_decide_eq_true_2; [done|]. by left.
    + apply String.eqb_neq in Heq. rewrite IH. f_equal.
      apply bool_decide_ext. rewrite Exists_cons. split; [tauto|].
      intros [He|?]; [|done]. unfold has_id in He. congruence.
Qed.

(** [any] answers [False] only after it has read the id of every entry,
    and raises nothing but the [KeyError] of an absent id. *)
Lemma any_id_Return_false horse_id (es : list Result.t) :
  any_id horse_id es = Return false → Forall (λ e, is_Some (Result.id e)) es.
Proof.
  induction es as [|e es IH]; simpl; [done|].
  destruct (Result.id e) as [i|] eqn:Hi; simpl; [|discriminate].
  destruct (String.eqb i horse_id); [discriminate|]. intros ?%IH.
  constructor; [by rewrite Hi | done].
Qed.

Lemma any_id_Raise horse_id (es : list Result.t) e :
  any_id horse_id es = Raise e → e = KeyError "id".
Proof.
  induction es as [|e0 es IH]; simpl; [discriminate|].
  destruct (Result.id e0) as [i|]; simpl; [|by intros [= <-]]. rewrite ?bind_Return.
  by destruct (String.eqb i horse_id).
Qed.

Lemma horse_races_of_all_ids horse_id races :
  all_ids races →
  horse_races_of horse_id races = Return (matching_races horse_id races).
Proof.
  unfold matching_races. induction 1 as [|r races Hr _ IH]; [done|].
  simpl. rewrite get_results, (any_id_all_ids _ _ Hr), bind_Return, IH, bind_Return.
  rewrite filter_cons.
  destruct (decide (matches horse_id r)) as [Hm|Hm]; unfold matches in Hm.
  - by rewrite bool_decide_eq_true_2.
  - by rewrite bool_decide_eq_false_2.
Qed.

(** A race that the comprehension returns or drops without raising is
    either kept or has been read to its end. *)
Lemma horse_races_of_Return horse_id races hr :
  horse_races_of horse_id races = Return hr →
  Forall (λ r, r ∈ hr ∨ Forall (λ e, is_Some (Result.id e)) (results_of r)) races.
Proof.
  revert hr. induction races as [|r races IH]; intros hr; simpl; [done|].
  rewrite get_results.
  destruct (any_id horse_id (results_of r)) as [b|] eqn:Hany; [|discriminate].
  rewrite ?bind_Return.
  destruct (horse_races_of horse_id races) as [rest|]; [|discriminate].
  rewrite ?bind_Return. intros [= <-]. specialize (IH rest eq_refl).
  constructor.
  - destruct b; [left; by left | right; by eapply any_id_Return_false].
  - eapply Forall_impl; [exact IH|]. intros r' [?|?]; [|by right].
    left. destruct b; [by right | done].
Qed.

Lemma horse_races_of_Raise horse_id races e :
  horse_races_of horse_id races = Raise e → e = KeyError "id".
Proof.
  induction races as [|r races IH]; simpl; [discriminate|].
  destruct (any_id horse_id (get (Race.results r) [])) as [b|e0] eqn:Hany.
  - rewrite ?bind_Return. destruct (horse_races_of horse_id races); [discriminate|].
    rewrite ?bind_Raise. intros [= <-]. by apply IH.
  - rewrite ?bind_Raise. intros [= <-]. by eapply any_id_Raise.
Qed.

(** The inner loop on entries that all carry an id appends the position
    of each matching entry, 0 for one that has no position. *)
Lemma collect_race_all_ids horse_id (es : list Result.t) positions :
  Forall (λ e, is_Some (Result.id e)) es →
  collect_race horse_id es positions
  = Return (positions ++ (entry_position <$> filter (has_id horse_id) es)).
Proof.
  intros Hall. revert positions.
  induction Hall as [|e es [i Hi] _ IH]; intros positions; cbn [collect_race].
  - by rewrite app_nil_r.
  - rewrite Hi. cbn [subscript]. rewrite bind_Return, filter_cons.
    destruct (String.eqb i horse_id) eqn:Heq.
    + apply String.eqb_eq in Heq as ->. rewrite decide_True by done.
      rewrite IH, <- app_assoc. rewrite fmap_cons. unfold entry_position.
      by destruct (Result.position e).
    + apply String.eqb_neq in Heq.
      rewrite decide_False by (unfold has_id; congruence). apply IH.
Qed.

Lemma collect_race_Return horse_id (es : list Result.t) positions ps :
  collect_race horse_id es positions = Return ps →
  Forall (λ e, is_Some (Result.id e)) es.
Proof.
  revert positions. induction es as [|e es IH]; intros positions; simpl; [done|].
  destruct (Result.id e) as [i|] eqn:Hi; simpl; [|discriminate].
  destruct (String.eqb i horse_id); intros ?%IH; (constructor; [by rewrite Hi | done]).
Qed.

Lemma collect_race_Raise horse_id (es : list Result.t) positions e :
  collect_race horse_id es positions = Raise e → e = KeyError "id".
Proof.
  revert positions. induction es as [|e0 es IH]; intros positions; simpl; [discriminate|].
  destruct (Result.id e0) as [i|]; simpl; [|by intros [= <-]]. rewrite ?bind_Return.
  destruct (String.eqb i horse_id); apply IH.
Qed.

Lemma collect_positions_all_ids horse_id races positions :
  all_ids races →
  collect_positions horse_id races positions
  = Return (positions ++
      (r ← races; entry_position <$> filter (has_id horse_id) (results_of r))).
Proof.
  intros Hall. revert positions.
  induction Hall as [|r races Hr _ IH]; intros positions; simpl.
  - by rewrite app_nil_r.
  - rewrite get_results, (collect_race_all_ids _ _ _ Hr), bind_Return, IH.
    by rewrite <- app_assoc.
Qed.

Lemma collect_positions_Return horse_id races positions ps :
  collect_positions horse_id races positions = Return ps → all_ids races.
Proof.
  revert positions. induction races as [|r races IH]; intros positions; simpl.
  - intros _. constructor.
  - rewrite get_results.
    destruct (collect_race horse_id (results_of r) positions) as [ps'|] eqn:Hr;
      [|discriminate].
    rewrite ?bind_Return. intros ?%IH. constructor; [|done].
    by eapply collect_race_Return.
Qed.

Lemma collect_positions_Raise horse_id races positions e :
  collect_positions horse_id races positions = Raise e → e = KeyError "id".
Proof.
  revert positions. induction races as [|r races IH]; intros positions; simpl;
    [discriminate|].
  destruct (collect_race horse_id (get (Race.results r) []) positions) as [ps'|e0] eqn:Hr.
  - rewrite ?bind_Return. apply IH.
  - rewrite ?bind_Raise. intros [= <-]. by eapply collect_race_Raise.
Qed.

Lemma all_ids_matching horse_id races :
  all_ids races → all_ids (matching_races horse_id races).
Proof.
  unfold all_ids, matching_races. rewrite !Forall_forall.
  intros Hall r [_ Hr]%list_elem_of_filter. by apply Hall.
Qed.

Lemma collect_positions_matching horse_id races :
  all_ids races →
  collect_positions horse_id (matching_races horse_id races) []
  = Return (positions_of horse_id races).
Proof.
  intros Hall. by rewrite collect_positions_all_ids by by apply all_ids_matching.
Qed.

(** What the function computes on a corpus whose entries all carry an id,
    in terms of the matching races and of the positions they report. *)
Lemma analyze_all_ids horse_id races :
  all_ids races →
  analyze_historical_performance horse_id races =
    let horse_races := matching_races horse_id races in
    let positions := positions_of horse_id races in
    if negb (truthy horse_races) then
      Return {[ "horse_id" := VStr horse_id;
                "performance" := VStr "No historical data" ]}
    else
      Return {[ "horse_id" := VStr horse_id;
                "total_races" := VInt (Z.of_nat (length horse_races));
                "average_position" :=
                  VFloat (if truthy positions
                          then np_mean (inject_Z <$> positions) else 0);
                "win_rate" :=
                  VFloat (if truthy positions
                          then of_nat (length (filter (λ p, p = 1%Z) positions))
                               / of_nat (length positions)
                          else 0);
                "recent_form" :=
                  VList (if (5 <=? length positions)%nat
                         then slice_last 5 positions else positions) ]}.
Proof.
  intros Hall. unfold analyze_historical_performance.
  rewrite (horse_races_of_all_ids _ _ Hall), bind_Return.
  cbv zeta. destruct (negb (truthy (matching_races horse_id races))); [done|].
  by rewrite (collect_positions_matching _ _ Hall), bind_Return.
Qed.

Lemma analyze_Return horse_id races d :
  analyze_historical_performance horse_id races = Return d → all_ids races.
Proof.
  unfold analyze_historical_performance.
  destruct (horse_races_of horse_id races) as [hr|] eqn:Hhr; [|discriminate].
  rewrite bind_Return. intros Hd.
  apply horse_races_of_Return in Hhr.
  eapply Forall_impl; [exact Hhr|]. intros r [Hin|Hids]; [|done].
  destruct hr as [|r0 hr]; [by apply elem_of_nil in Hin|].
  cbn [truthy negb] in Hd.
  destruct (collect_positions horse_id (r0 :: hr) []) as [ps|] eqn:Hps; [|discriminate].
  apply collect_positions_Return in Hps. unfold all_ids in Hps.
  rewrite Forall_forall in Hps. by apply Hps.
Qed.

Lemma analyze_Raise horse_id races e :
  analyze_historical_performance horse_id races = Raise e → e = KeyError "id".
Proof.
  unfold analyze_historical_performance.
  destruct (horse_races_of horse_id races) as [hr|e0] eqn:Hhr.
  - rewrite bind_Return. destruct (negb (truthy hr)); [discriminate|].
    destruct (collect_positions horse_id hr []) as [ps|e1] eqn:Hps; [discriminate|].
    rewrite bind_Raise. intros [= <-]. by eapply collect_positions_Raise.
  - rewrite bind_Raise. intros [= <-]. by eapply horse_races_of_Raise.
Qed.

Lemma matching_races_nil horse_id races :
  matching_races horse_id races = [] ↔ ¬ Exists (matches horse_id) races.
Proof.
  unfold matching_races. rewrite <- Forall_Exists_neg. split.
  - intros Hnil. apply Forall_forall. intros r Hin Hm.
    assert (r ∈ filter (matches horse_id) races) as Hr by by apply list_elem_of_filter.
    rewrite Hnil in Hr. by apply elem_of_nil in Hr.
  - intros Hall. induction Hall as [|r races Hr _ IH]; [done|].
    by rewrite filter_cons, decide_False.
Qed.

(** A horse with a matching race has at least one collected position. *)
Lemma positions_of_nonempty horse_id races :
  Exists (matches horse_id) races → positions_of horse_id races ≠ [].
Proof.
  unfold positions_of, matching_races.
  induction 1 as [r races Hm|r races _ IH].
  - rewrite filter_cons, decide_True by done. rewrite bind_cons.
    unfold matches in Hm. apply Exists_exists in Hm as (e & Hin & He).
    assert (e ∈ filter (has_id horse_id) (results_of r)) as Hf
      by by apply list_elem_of_filter.
    destruct (filter (has_id horse_id) (results_of r)); [by apply elem_of_nil in Hf|].
    done.
  - rewrite filter_cons. destruct (decide (matches horse_id r)); [|done].
    rewrite bind_cons. intros [_ ?]%app_eq_nil. done.
Qed.

(** The slice kept as recent form: the last five positions, all of them
    when there are fewer. *)
Lemma recent_form_suffix (positions : list Z) :
  let rf := if (5 <=? length positions)%nat
            then slice_last 5 positions else positions in
  rf `suffix_of` positions ∧ length rf = (5 `min` length positions)%nat.
Proof.
  cbv zeta. destruct (5 <=? length positions)%nat eqn:Hle.
  - apply Nat.leb_le in Hle. unfold slice_last. split.
    + exists (take (length positions - 5) positions). by rewrite take_drop.
    + rewrite length_drop. lia.
  - apply Nat.leb_gt in Hle. split; [done|lia].
Qed.

(** C4 (as amended).  On a corpus whose result entries all carry an id and
    in which some race has an entry for the horse, the profile is returned:
    its total is the number of matching races, its average position the
    arithmetic mean of the collected positions (0 for an entry without
    position), its win rate the share of collected positions equal to 1,
    and its recent form the last five collected positions in corpus order,
    all of them when there are fewer. *)
Theorem analyze_profile horse_id races :
  all_ids races →
  Exists (matches horse_id) races →
  let positions := positions_of horse_id races in
  ∃ average_position win_rate recent_form,
    analyze_historical_performance horse_id races =
      Return {[ "horse_id" := VStr horse_id;
                "total_races" := VInt (Z.of_nat (length (matching_races horse_id races)));
                "average_position" := VFloat average_position;
                "win_rate" := VFloat win_rate;
                "recent_form" := VList recent_form ]}
    ∧ average_position == Qsum (inject_Z <$> positions) / of_nat (length positions)
    ∧ win_rate == of_nat (length (filter (λ p, p = 1%Z) positions))
                  / of_nat (length positions)
    ∧ recent_form `suffix_of` positions
    ∧ length recent_form = (5 `min` length positions)%nat.
Proof.
  intros Hall Hex positions. rewrite (analyze_all_ids _ _ Hall). cbv zeta.
  fold positions.
  destruct (matching_races horse_id races) as [|r0 hr] eqn:Hm.
  { by apply matching_races_nil in Hm. }
  pose proof (positions_of_nonempty _ _ Hex) as Hne. fold positions in Hne.
  destruct positions as [|p ps] eqn:Hps; [done|]. cbn [truthy negb].
  eexists _, _, _. split; [reflexivity|].
  split; [|split].
  - unfold np_mean. by rewrite length_fmap.
  - reflexivity.
  - apply (recent_form_suffix (p :: ps)).
Qed.

Lemma analyze_profile_witness :
  ∃ average_position win_rate recent_form,
    analyze_historical_performance "h1" two_races =
      Return {[ "horse_id" := VStr "h1";
                "total_races" := VInt 2;
                "average_position" := VFloat average_position;
                "win_rate" := VFloat win_rate;
                "recent_form" := VList recent_form ]}
    ∧ average_position == Qsum [inject_Z 1; inject_Z 3] / of_nat 2
    ∧ win_rate == of_nat 1 / of_nat 2
    ∧ recent_form `suffix_of` [1%Z; 3%Z]
    ∧ length recent_form = 2%nat.
Proof.
  apply (analyze_profile "h1" two_races).
  - repeat constructor; simpl; eauto.
  - left. left. reflexivity.
Defined.

(** The claim without the condition on ids fails: a race that matches
    through its first entry and has a second entry without id raises. *)
Lemma analyze_profile_needs_ids :
  Exists (matches "h1") anonymous_after
  ∧ analyze_historical_performance "h1" anonymous_after = Raise (KeyError "id").
Proof. split; [left; left; reflexivity | reflexivity]. Qed.

(** The worked example of the specification. *)
Example analyze_two_races :
  ∃ average_position win_rate,
    analyze_historical_performance "h1" two_races =
      Return {[ "horse_id" := VStr "h1";
                "total_races" := VInt 2;
                "average_position" := VFloat average_position;
                "win_rate" := VFloat win_rate;
                "recent_form" := VList [1%Z; 3%Z] ]}
    ∧ average_position == 2.0 ∧ win_rate == 0.5.
Proof. eexists _, _. split; [reflexivity|]. split; reflexivity. Qed.

(** C5 (as amended).  On a corpus whose result entries all carry an id and
    in which no race has an entry with the id of the horse, whatever the
    names in the entries, the result is exactly the two-key dict with
    ['performance'] set to ["No historical data"]; it has no
    ['total_races']. *)
Theorem analyze_no_history horse_id races :
  all_ids races →
  ¬ Exists (matches horse_id) races →
  ∃ d, analyze_historical_performance horse_id races = Return d
     ∧ d = {[ "horse_id" := VStr horse_id;
              "performance" := VStr "No historical data" ]}
     ∧ d !! "total_races" = None.
Proof.
  intros Hall Hno. rewrite (analyze_all_ids _ _ Hall). cbv zeta.
  apply matching_races_nil in Hno. rewrite Hno. cbn [truthy negb].
  eexists. split; [reflexivity|]. split; reflexivity.
Qed.

Lemma analyze_no_history_witness :
  ∃ d, analyze_historical_performance "h1" other_races = Return d
     ∧ d = {[ "horse_id" := VStr "h1";
              "performance" := VStr "No historical data" ]}
     ∧ d !! "total_races" = None.
Proof.
  apply (analyze_no_history "h1" other_races).
  - repeat constructor; simpl; eauto.
  - intros Hex. repeat (apply Exists_cons in Hex as [Hex|Hex]);
      try (by apply Exists_nil in Hex);
      unfold matches in Hex; simpl in Hex;
      repeat (apply Exists_cons in Hex as [Hex|Hex]);
      try (by apply Exists_nil in Hex); discriminate Hex.
Defined.

(** The claim without the condition on ids fails: an entry without id, in
    a corpus where no entry has the id of the horse, raises. *)
Lemma analyze_no_history_needs_ids :
  ¬ Exists (matches "h1") anonymous_alone
  ∧ analyze_historical_performance "h1" anonymous_alone = Raise (KeyError "id").
Proof.
  split; [|reflexivity]. intros Hex.
  apply Exists_cons in Hex as [Hex|Hex]; [|by apply Exists_nil in Hex].
  unfold matches in Hex. simpl in Hex.
  apply Exists_cons in Hex as [Hex|Hex]; [discriminate Hex|by apply Exists_nil in Hex].
Qed.

(** C7 (as amended).  The analysis returns, raising nothing, exactly on the
    corpora whose result entries all carry an id; the only exception it can
    raise is the [KeyError] of an absent ['id'].  The other absent keys do
    default: a race without ['results'] counts as one with no entries, and
    a matching entry without ['position'] puts 0 in the collected
    positions. *)
Theorem analyze_raises_nothing horse_id races :
  ((∃ d, analyze_historical_performance horse_id races = Return d) ↔ all_ids races)
  ∧ (∀ e, analyze_historical_performance horse_id races = Raise e → e = KeyError "id")
  ∧ (all_ids races →
       collect_positions horse_id (matching_races horse_id races) []
       = Return (positions_of horse_id races))
  ∧ (∀ r, Race.results r = None → results_of r = [])
  ∧ (∀ e positions, Result.id e = Some horse_id → Result.position e = None →
       collect_race horse_id [e] positions = Return (positions ++ [0%Z])).
Proof.
  split; [|split; [|split; [|split]]].
  - split.
    + intros [d Hd]. by eapply analyze_Return.
    + intros Hall. rewrite (analyze_all_ids _ _ Hall). cbv zeta.
      destruct (negb _); by eexists.
  - intros e. apply analyze_Raise.
  - apply collect_positions_matching.
  - intros r Hr. unfold results_of. by rewrite Hr.
  - intros e positions Hid Hpos. cbn [collect_race]. rewrite Hid. cbn [subscript].
    rewrite bind_Return, String.eqb_refl, Hpos. reflexivity.
Qed.

Lemma analyze_raises_nothing_witness :
  (∃ d, analyze_historical_performance "h1" unplaced_races = Return d)
  ∧ collect_positions "h1" (matching_races "h1" unplaced_races) []
    = Return [0%Z; 2%Z].
Proof.
  destruct (analyze_raises_nothing "h1" unplaced_races) as (Hiff & _ & Hpos & _).
  assert (all_ids unplaced_races) as Hall by (repeat constructor; simpl; eauto).
  split; [by apply Hiff | exact (Hpos Hall)].
Defined.

(** The claim as stated fails: an entry without id raises, here before the
    entry of the horse is reached. *)
Lemma analyze_raises_on_missing_id :
  analyze_historical_performance "h1" anonymous_before = Raise (KeyError "id").
Proof. reflexivity. Qed.

(** Entries without position in a history: the positions collected for
    "h1" in [unplaced_races] are 0 and 2. *)
Example analyze_unplaced :
  ∃ average_position win_rate,
    analyze_historical_performance "h1" unplaced_races =
      Return {[ "horse_id" := VStr "h1";
                "total_races" := VInt 2;
                "average_position" := VFloat average_position;
                "win_rate" := VFloat win_rate;
                "recent_form" := VList [0%Z; 2%Z] ]}
    ∧ average_position == 1 ∧ win_rate == 0.
Proof. eexists _, _. split; [reflexivity|]. split; reflexivity. Qed.

(** ** Witnesses for the advice *)

Example generate_betting_advice_turf :
  generate_betting_advice scripted turf_race None [0.7; 0.4]
  = (Return [alpha_advice; beta_advice], []).
Proof. vm_compute. reflexivity. Qed.

Lemma recommended_bet_thresholds_witness :
  ∃ c, draws scripted 2 [0.7; 0.4] !! 1%nat = Some c
     ∧ beta_advice !! "confidence" = Some (VFloat c)
     ∧ (beta_advice !! "recommendedBet" = Some (VStr "Win") ↔ 0.7 < c)
     ∧ (beta_advice !! "recommendedBet" = Some (VStr "Place") ↔ 0.4 < c ∧ c <= 0.7)
     ∧ (beta_advice !! "recommendedBet" = Some (VStr "No Bet") ↔ c <= 0.4)
     ∧ (c == 0.7 → beta_advice !! "recommendedBet" = Some (VStr "Place"))
     ∧ (c == 0.4 → beta_advice !! "recommendedBet" = Some (VStr "No Bet")).
Proof.
  apply (recommended_bet_thresholds scripted turf_race None [0.7; 0.4]
           [alpha_advice; beta_advice] [] 1 beta_advice).
  - vm_compute. reflexivity.
  - reflexivity.
Defined.

Lemma expected_odds_formula_witness :
  ∃ h o c, get (Race.horses turf_race) [] !! 0%nat = Some h
     ∧ Horse.odds h = Some o
     ∧ draws scripted 2 [0.7; 0.4] !! 0%nat = Some c
     ∧ alpha_advice !! "expectedOdds" = Some (VFloat (o * (1 + (1 - c) * 0.5)))
     ∧ (c == 1 → o * (1 + (1 - c) * 0.5) == o)
     ∧ (c == 0 → o * (1 + (1 - c) * 0.5) == 1.5 * o).
Proof.
  apply (expected_odds_formula scripted turf_race None [0.7; 0.4]
           [alpha_advice; beta_advice] [] 0 alpha_advice).
  - vm_compute. reflexivity.
  - reflexivity.
Defined.

Lemma expected_odds_monotone_witness :
  ∃ e1 e2, alpha_cautious !! "expectedOdds" = Some (VFloat e1)
         ∧ alpha_advice !! "expectedOdds" = Some (VFloat e2)
         ∧ e2 <= e1.
Proof.
  apply (expected_odds_monotone alpha 3.0 0.4 0.7 alpha_cautious alpha_advice).
  - reflexivity.
  - reflexivity.
  - reflexivity.
  - vm_compute. reflexivity.
  - vm_compute. reflexivity.
Defined.

Lemma generate_betting_advice_failure_witness :
  ∃ recs,
    generate_betting_advice scripted weightless_race (Some two_races) [0.7; 0.8; 0.3]
    = (Return recs, advance scripted 2 [0.7; 0.8; 0.3])
    ∧ length recs = 2%nat
    ∧ ∀ (i : nat) h, [alpha; unweighed] !! i = Some h →
        ∃ rec, recs !! i = Some rec
          ∧ rec !! "horseId" = VStr <$> Horse.id h
          ∧ rec !! "horseName" = VStr <$> Horse.name h.
Proof.
  destruct (generate_betting_advice_failure scripted weightless_race
              (Some two_races) [0.7; 0.8; 0.3]) as (_ & _ & Hok).
  apply Hok. repeat constructor; simpl; eauto.
Defined.

(** A horse without weight is advised on; a horse without name stops the
    loop with the [KeyError] of ['name'], after the second sample. *)
Example generate_betting_advice_weightless :
  generate_betting_advice scripted weightless_race None [0.7; 0.8; 0.3]
  = (Return [alpha_advice; unweighed_advice], [0.3]).
Proof. vm_compute. reflexivity. Qed.

Example generate_betting_advice_nameless :
  generate_betting_advice scripted nameless_race None [0.7; 0.8; 0.3]
  = (Raise (KeyError "name"), [0.3]).
Proof. reflexivity. Qed.

(** * Further properties of the code *)

(** ** process_race_data: failures, shape and bounds *)

(** A comprehension [[h[key] for h in l]] raises the [KeyError] of [key] as
    soon as one element lacks it. *)
Lemma mapM_subscript_Raise {A B} key (field : A → option B) (l : list A) :
  Exists (λ h, field h = None) l →
  mapM (λ h, subscript key (field h)) l = Raise (KeyError key).
Proof.
  induction l as [|h l IH]; intros Hex; [by apply Exists_nil in Hex|].
  cbn [mapM]. destruct (field h) as [v|] eqn:Hv; cbn [subscript]; [|done].
  rewrite bind_Return, IH; [done|].
  apply Exists_cons in Hex as [Hh|Hl]; [congruence|done].
Qed.

Lemma Forall_is_Some_or_Exists_None {A B} (field : A → option B) (l : list A) :
  Forall (λ h, is_Some (field h)) l ∨ Exists (λ h, field h = None) l.
Proof.
  induction l as [|h l [IH|IH]].
  - left. constructor.
  - destruct (field h) as [v|] eqn:Hv.
    + left. constructor; [by rewrite Hv | done].
    + right. by left.
  - right. by right.
Qed.

(** X1.  The summary raises exactly when some horse lacks ['odds'] or
    ['weight'] (ids and names are never read, and an empty list of horses
    raises nothing).  The odds of all horses are read before any weight:
    one horse without odds gives [KeyError('odds')] wherever the horse
    without weight stands, and [KeyError('weight')] is raised only when
    every horse has odds. *)
Theorem process_race_data_failure (race : Race.t) :
  let horses := get (Race.horses race) [] in
  ((∃ e, process_race_data race = Raise e)
     ↔ Exists (λ h, Horse.odds h = None ∨ Horse.weight h = None) horses)
  ∧ (Exists (λ h, Horse.odds h = None) horses →
       process_race_data race = Raise (KeyError "odds"))
  ∧ (Forall (λ h, is_Some (Horse.odds h)) horses →
     Exists (λ h, Horse.weight h = None) horses →
       process_race_data race = Raise (KeyError "weight")).
Proof.
  intros horses.
  assert (Exists (λ h, Horse.odds h = None) horses →
          process_race_data race = Raise (KeyError "odds")) as Hodds.
  { intros Hex. unfold process_race_data. fold horses.
    destruct horses as [|h0 hs]; [by apply Exists_nil in Hex|]. cbn [truthy].
    by rewrite (mapM_subscript_Raise "odds" Horse.odds _ Hex). }
  assert (Forall (λ h, is_Some (Horse.odds h)) horses →
          Exists (λ h, Horse.weight h = None) horses →
          process_race_data race = Raise (KeyError "weight")) as Hweight.
  { intros Hall Hex. unfold process_race_data. fold horses.
    destruct horses as [|h0 hs]; [by apply Exists_nil in Hex|]. cbn [truthy].
    destruct (mapM_subscript "odds" Horse.odds _ Hall) as [-> _].
    by rewrite bind_Return, (mapM_subscript_Raise "weight" Horse.weight _ Hex). }
  split; [|by split].
  split.
  - intros [e He].
    destruct (Forall_is_Some_or_Exists_None Horse.odds horses) as [Ho|Ho];
      [|eapply Exists_impl; [exact Ho|]; by left].
    destruct (Forall_is_Some_or_Exists_None Horse.weight horses) as [Hw|Hw];
      [|eapply Exists_impl; [exact Hw|]; by right].
    exfalso. revert He. unfold process_race_data. fold horses.
    destruct (truthy horses); [|discriminate].
    destruct (mapM_subscript "odds" Horse.odds _ Ho) as [-> _].
    destruct (mapM_subscript "weight" Horse.weight _ Hw) as [-> _].
    discriminate.
  - intros Hex.
    destruct (Forall_is_Some_or_Exists_None Horse.odds horses) as [Ho|Ho];
      [|eexists; by apply Hodds].
    eexists. apply Hweight; [done|].
    apply Exists_exists in Hex as (h & Hin & [Hh|Hh]).
    + rewrite Forall_forall in Ho. destruct (Ho h Hin) as [? ?]. congruence.
    + apply Exists_exists. eauto.
Qed.

Lemma process_race_data_failure_witness :
  process_race_data mixed_race = Raise (KeyError "odds").
Proof.
  destruct (process_race_data_failure mixed_race) as (_ & Hodds & _).
  apply Hodds. right. left. reflexivity.
Defined.

(** What a returned summary looks like. *)
Lemma process_race_data_Return (race : Race.t) s :
  process_race_data race = Return s →
  let horses := get (Race.horses race) [] in
  processed_data s = race ∧
  ((horses = [] ∧ analysis s = ∅) ∨
   (horses ≠ []
    ∧ Forall (λ h, is_Some (Horse.odds h)) horses
    ∧ Forall (λ h, is_Some (Horse.weight h)) horses
    ∧ analysis s =
        {[ "total_horses" := VInt (Z.of_nat (length horses));
           "average_odds" := VFloat (np_mean (omap Horse.odds horses));
           "average_weight" := VFloat (np_mean (omap Horse.weight horses));
           "race_surface" := VStr (get (Race.surface race) "Unknown") ]})).
Proof.
  intros Hs horses. revert Hs. unfold process_race_data. fold horses.
  destruct horses as [|h0 hs] eqn:Hh; cbn [truthy].
  { intros [= <-]. split; [done|]. by left. }
  destruct (Forall_is_Some_or_Exists_None Horse.odds (h0 :: hs)) as [Ho|Ho];
    [|by rewrite (mapM_subscript_Raise "odds" Horse.odds _ Ho)].
  destruct (mapM_subscript "odds" Horse.odds _ Ho) as [-> _]. rewrite bind_Return.
  destruct (Forall_is_Some_or_Exists_None Horse.weight (h0 :: hs)) as [Hw|Hw];
    [|by rewrite (mapM_subscript_Raise "weight" Horse.weight _ Hw)].
  destruct (mapM_subscript "weight" Horse.weight _ Hw) as [-> _]. rewrite bind_Return.
  intros [= <-]. split; [done|]. right. done.
Qed.

(** X2.  A returned summary always hands back the race it was given; its
    analysis is the empty dict exactly when the race has no horses, and
    otherwise has exactly the four keys, with a horse count of at least
    one. *)
Theorem process_race_data_shape (race : Race.t) s :
  process_race_data race = Return s →
  let horses := get (Race.horses race) [] in
  processed_data s = race
  ∧ (analysis s = ∅ ↔ horses = [])
  ∧ (horses ≠ [] →
       dom (analysis s)
       = {[ "total_horses"; "average_odds"; "average_weight"; "race_surface" ]}
       ∧ ∃ n, analysis s !! "total_horses" = Some (VInt n)
            ∧ n = Z.of_nat (length horses) ∧ (1 <= n)%Z).
Proof.
  intros Hs horses.
  destruct (process_race_data_Return race s Hs) as [Hpd Hcases]. fold horses in Hcases.
  split; [done|].
  destruct Hcases as [[Hnil Han]|(Hne & _ & _ & Han)].
  - split; [done|]. by intros ?.
  - split.
    + split; [|done]. rewrite Han. intros Hempty.
      apply (f_equal (λ m : gmap string value, m !! "total_horses")) in Hempty.
      discriminate Hempty.
    + intros _. rewrite Han. split.
      * rewrite !dom_insert_L, dom_singleton_L. set_solver.
      * eexists. split; [reflexivity|]. split; [done|].
        destruct horses; [done|]. simpl. lia.
Qed.

Lemma process_race_data_shape_witness :
  ∃ s, process_race_data turf_race = Return s
     ∧ processed_data s = turf_race
     ∧ dom (analysis s)
       = {[ "total_horses"; "average_odds"; "average_weight"; "race_surface" ]}
     ∧ analysis s !! "total_horses" = Some (VInt 2).
Proof.
  eexists. split; [reflexivity|].
  destruct (process_race_data_shape turf_race _ eq_refl) as (Hpd & _ & Hkeys).
  split; [exact Hpd|].
  destruct Hkeys as (Hdom & n & Hn & -> & _); [discriminate|].
  split; [exact Hdom | exact Hn].
Defined.

(** A sum of numbers that all lie between two bounds lies between the
    bounds times their count; so does, for a non-empty list, the mean. *)
Lemma Qsum_bounds (lo hi : Q) (l : list Q) :
  Forall (λ x, lo <= x ∧ x <= hi) l →
  lo * of_nat (length l) <= Qsum l ∧ Qsum l <= hi * of_nat (length l).
Proof.
  induction 1 as [|x l [Hlo Hhi] _ [IHlo IHhi]].
  - change (of_nat (length [])) with 0. change (Qsum []) with 0. lra.
  - assert (of_nat (length (x :: l)) == 1 + of_nat (length l)) as Hlen.
    { unfold of_nat. cbn [length]. rewrite Nat2Z.inj_succ, <- Z.add_1_l.
      by rewrite inject_Z_plus. }
    change (Qsum (x :: l)) with (x + Qsum l). rewrite Hlen. lra.
Qed.

Lemma np_mean_bounds (lo hi : Q) (l : list Q) :
  l ≠ [] →
  Forall (λ x, lo <= x ∧ x <= hi) l →
  lo <= np_mean l ∧ np_mean l <= hi.
Proof.
  intros Hne Hall. destruct (Qsum_bounds lo hi l Hall) as [Hlo Hhi].
  assert (0 < of_nat (length l)) as Hpos.
  { apply of_nat_pos. destruct l; [done | simpl; lia]. }
  unfold np_mean. split.
  - apply Qle_shift_div_l; [done|]. lra.
  - apply Qle_shift_div_r; [done|]. lra.
Qed.




(** ** generate_betting_advice: ranges and composition *)


Section AdviceRange.

Context {G : Type} (uniform : Q → Q → G → Q * G).

(** The contract of [np.random.uniform(0.1, 0.9)]: the sample lies in the
    half-open interval from 0.1 to 0.9. *)
Hypothesis uniform_range :
  ∀ g, 0.1 <= (uniform 0.1 0.9 g).1 ∧ (uniform 0.1 0.9 g).1 < 0.9.



End AdviceRange.


Section AdviceComposition.

Context {G : Type} (uniform : Q → Q → G → Q * G).


(** The list built so far only prefixes what the loop returns. *)
Lemma advice_loop_acc hs acc g :
  advice_loop uniform hs acc g
  = ((acc ++.) <$> (advice_loop uniform hs [] g).1, (advice_loop uniform hs [] g).2).
Proof.
  revert acc g. induction hs as [|h hs IH]; intros acc g; simpl.
  - by rewrite app_nil_r.
  - destruct (uniform 0.1 0.9 g) as [c g1].
    destruct (advice_entry h c) as [entry|e]; [|done].
    rewrite (IH (acc ++ [entry])), (IH ([] ++ [entry])). simpl.
    destruct (advice_loop uniform hs [] g1).1 as [recs|e]; simpl; [|done].
    by rewrite <- app_assoc.
Qed.

Lemma advice_loop_app hs1 hs2 acc g :
  advice_loop uniform (hs1 ++ hs2) acc g
  = match advice_loop uniform hs1 acc g with
    | (Return advice, g1) => advice_loop uniform hs2 advice g1
    | (Raise e, g1) => (Raise e, g1)
    end.
Proof.
  revert acc g. induction hs1 as [|h hs1 IH]; intros acc g; simpl; [done|].
  destruct (uniform 0.1 0.9 g) as [c g1].
  destruct (advice_entry h c) as [entry|e]; [apply IH | done].
Qed.

(** X6.  Advising on a race whose horses are those of a first race
    followed by those of a second one is advising on the first race and
    then, from the state in which that leaves the random source, on the
    second: the recommendations are concatenated, and the first failure
    met is the failure of the whole. *)
Theorem generate_betting_advice_app race1 race2 race hist g :
  get (Race.horses race) [] = get (Race.horses race1) [] ++ get (Race.horses race2) [] →
  generate_betting_advice uniform race hist g
  = match generate_betting_advice uniform race1 hist g with
    | (Return recs1, g1) =>
        match generate_betting_advice uniform race2 hist g1 with
        | (Return recs2, g2) => (Return (recs1 ++ recs2), g2)
        | (Raise e, g2) => (Raise e, g2)
        end
    | (Raise e, g1) => (Raise e, g1)
    end.
Proof.
  intros Hsplit. unfold generate_betting_advice. rewrite Hsplit, advice_loop_app.
  destruct (advice_loop uniform (get (Race.horses race1) []) [] g) as [[recs1|e] g1];
    [|done].
  rewrite advice_loop_acc.
  by destruct (advice_loop uniform (get (Race.horses race2) []) [] g1) as [[recs2|e] g2].
Qed.

End AdviceComposition.


Lemma generate_betting_advice_app_witness :
  generate_betting_advice scripted turf_race None [0.7; 0.4]
  = match generate_betting_advice scripted alpha_race None [0.7; 0.4] with
    | (Return recs1, g1) =>
        match generate_betting_advice scripted beta_race None g1 with
        | (Return recs2, g2) => (Return (recs1 ++ recs2), g2)
        | (Raise e, g2) => (Raise e, g2)
        end
    | (Raise e, g1) => (Raise e, g1)
    end.
Proof.
  apply (generate_betting_advice_app scripted alpha_race beta_race turf_race None).
  reflexivity.
Defined.

(** ** analyze_historical_performance: shape, ranges and locality *)

(** A returned analysis is the one computed from the matching races and
    the positions they report. *)
Lemma analyze_Return_cases horse_id races d :
  analyze_historical_performance horse_id races = Return d →
  let horse_races := matching_races horse_id races in
  let positions := positions_of horse_id races in
  (¬ Exists (matches horse_id) races
   ∧ d = {[ "horse_id" := VStr horse_id;
            "performance" := VStr "No historical data" ]})
  ∨ (Exists (matches horse_id) races
     ∧ positions ≠ []
     ∧ d = {[ "horse_id" := VStr horse_id;
              "total_races" := VInt (Z.of_nat (length horse_races));
              "average_position" := VFloat (np_mean (inject_Z <$> positions));
              "win_rate" :=
                VFloat (of_nat (length (filter (λ p, p = 1%Z) positions))
                        / of_nat (length positions));
              "recent_form" :=
                VList (if (5 <=? length positions)%nat
                       then slice_last 5 positions else positions) ]}).
Proof.
  intros Hd. pose proof (analyze_Return _ _ _ Hd) as Hall.
  rewrite (analyze_all_ids _ _ Hall) in Hd. cbv zeta in Hd |- *.
  destruct (decide (Exists (matches horse_id) races)) as [Hex|Hno].
  - right. split; [done|].
    pose proof (positions_of_nonempty _ _ Hex) as Hne. split; [done|].
    destruct (matching_races horse_id races) as [|r0 hr] eqn:Hm.
    { by apply matching_races_nil in Hm. }
    destruct (positions_of horse_id races) as [|p ps]; [done|].
    cbn [truthy negb] in Hd. by injection Hd as <-.
  - left. split; [done|]. apply matching_races_nil in Hno.
    rewrite Hno in Hd. cbn [truthy negb] in Hd. by injection Hd as <-.
Qed.

(** X7.  The win rate of a returned profile is a share: it lies between 0
    and 1. *)
Theorem analyze_win_rate_range horse_id races d w :
  analyze_historical_performance horse_id races = Return d →
  d !! "win_rate" = Some (VFloat w) →
  0 <= w ∧ w <= 1.
Proof.
  intros Hd Hw.
  destruct (analyze_Return_cases _ _ _ Hd) as [[_ ->]|(_ & Hne & ->)];
    [discriminate Hw|].
  injection Hw as <-.
  set (positions := positions_of horse_id races) in *.
  assert (0 < of_nat (length positions)) as Hpos.
  { apply of_nat_pos. destruct positions; [done | simpl; lia]. }
  assert (0 <= of_nat (length (filter (λ p, p = 1%Z) positions))) as Hcount.
  { unfold of_nat. change 0 with (inject_Z 0). rewrite <- Zle_Qle. lia. }
  assert (of_nat (length (filter (λ p, p = 1%Z) positions))
          <= of_nat (length positions)) as Hle.
  { unfold of_nat. rewrite <- Zle_Qle. apply inj_le, length_filter. }
  split.
  - apply Qle_shift_div_l; [done|]. lra.
  - apply Qle_shift_div_r; [done|]. lra.
Qed.

Lemma analyze_win_rate_range_witness :
  ∃ d w, analyze_historical_performance "h1" two_races = Return d
       ∧ d !! "win_rate" = Some (VFloat w)
       ∧ 0 <= w ∧ w <= 1.
Proof.
  eexists _, _. split; [reflexivity|]. split; [reflexivity|].
  exact (analyze_win_rate_range "h1" two_races _ _ eq_refl eq_refl).
Defined.

(** X8.  Which of its two shapes a returned analysis has is decided by the
    corpus alone: it always echoes the horse id; it has ['total_races']
    (and the other profile keys, five in all) exactly when some race has
    an entry with the horse id, and it has ['performance'] (two keys in
    all) exactly when no race has one. *)
Theorem analyze_shape horse_id races d :
  analyze_historical_performance horse_id races = Return d →
  d !! "horse_id" = Some (VStr horse_id)
  ∧ (is_Some (d !! "total_races") ↔ Exists (matches horse_id) races)
  ∧ (is_Some (d !! "performance") ↔ ¬ Exists (matches horse_id) races)
  ∧ (Exists (matches horse_id) races →
       dom d = {[ "horse_id"; "total_races"; "average_position";
                  "win_rate"; "recent_form" ]})
  ∧ (¬ Exists (matches horse_id) races → dom d = {[ "horse_id"; "performance" ]}).
Proof.
  intros Hd.
  destruct (analyze_Return_cases _ _ _ Hd) as [[Hno ->]|(Hex & _ & ->)].
  - split; [reflexivity|]. split; [|split; [|split]].
    + split; [by intros [? [=]] | done].
    + split; [done | intros _; by eexists].
    + done.
    + intros _. rewrite dom_insert_L, dom_singleton_L. set_solver.
  - split; [reflexivity|]. split; [|split; [|split]].
    + split; [done | intros _; by eexists].
    + split; [by intros [? [=]] | done].
    + intros _. rewrite !dom_insert_L, dom_singleton_L. set_solver.
    + done.
Qed.

Lemma analyze_shape_witness :
  ∃ d, analyze_historical_performance "h1" unplaced_races = Return d
     ∧ d !! "horse_id" = Some (VStr "h1")
     ∧ dom d = {[ "horse_id"; "total_races"; "average_position";
                  "win_rate"; "recent_form" ]}.
Proof.
  eexists. split; [reflexivity|].
  destruct (analyze_shape "h1" unplaced_races _ eq_refl) as (Hid & _ & _ & Hdom & _).
  split; [exact Hid|]. apply Hdom. left. left. reflexivity.
Defined.

(** Every matching race reports at least one position. *)
Lemma length_matching_positions horse_id races :
  (length (matching_races horse_id races) ≤ length (positions_of horse_id races))%nat.
Proof.
  unfold positions_of, matching_races.
  induction races as [|r races IH]; [done|].
  rewrite filter_cons. destruct (decide (matches horse_id r)) as [Hm|Hm]; [|done].
  rewrite bind_cons, length_app. cbn [length].
  assert (1 ≤ length (entry_position <$> filter (has_id horse_id) (results_of r)))%nat;
    [|lia].
  rewrite length_fmap. unfold matches in Hm.
  apply Exists_exists in Hm as (e & Hin & He).
  assert (e ∈ filter (has_id horse_id) (results_of r)) as Hf
    by by apply list_elem_of_filter.
  destruct (filter (has_id horse_id) (results_of r));
    [by apply elem_of_nil in Hf | simpl; lia].
Qed.

(** X9.  The counts of a returned profile are consistent: the number of
    races is at least one, at most the size of the corpus and at most the
    number of positions collected (a race that lists the horse twice
    counts once but reports twice), and the recent form holds between one
    and five positions. *)
Theorem analyze_counts horse_id races d n :
  analyze_historical_performance horse_id races = Return d →
  d !! "total_races" = Some (VInt n) →
  (1 <= n)%Z
  ∧ (n <= Z.of_nat (length races))%Z
  ∧ (n <= Z.of_nat (length (positions_of horse_id races)))%Z
  ∧ ∃ rf, d !! "recent_form" = Some (VList rf)
        ∧ (1 ≤ length rf ≤ 5)%nat.
Proof.
  intros Hd Hn.
  destruct (analyze_Return_cases _ _ _ Hd) as [[_ ->]|(Hex & Hne & ->)];
    [discriminate Hn|].
  change (Some (VInt (Z.of_nat (length (matching_races horse_id races))))
          = Some (VInt n)) in Hn.
  injection Hn as <-.
  pose proof (length_matching_positions horse_id races) as Hmp.
  assert (length (matching_races horse_id races) ≤ length races)%nat as Hmr
    by apply length_filter.
  assert (1 ≤ length (matching_races horse_id races))%nat as Hm.
  { destruct (matching_races horse_id races) eqn:Hnil; [|simpl; lia].
    by apply matching_races_nil in Hnil. }
  split; [lia|]. split; [lia|]. split; [lia|].
  eexists. split; [reflexivity|].
  destruct (recent_form_suffix (positions_of horse_id races)) as [_ Hlen].
  cbv zeta in Hlen. rewrite Hlen. lia.
Qed.

Lemma analyze_counts_witness :
  ∃ d n, analyze_historical_performance "h1" two_races = Return d
       ∧ d !! "total_races" = Some (VInt n)
       ∧ (1 <= n)%Z
       ∧ (n <= Z.of_nat (length two_races))%Z
       ∧ (n <= Z.of_nat (length (positions_of "h1" two_races)))%Z
       ∧ ∃ rf, d !! "recent_form" = Some (VList rf)
             ∧ (1 ≤ length rf ≤ 5)%nat.
Proof.
  eexists _, _. split; [reflexivity|]. split; [reflexivity|].
  exact (analyze_counts "h1" two_races _ _ eq_refl eq_refl).
Defined.

Lemma matching_races_idemp horse_id races :
  matching_races horse_id (matching_races horse_id races)
  = matching_races horse_id races.
Proof.
  unfold matching_races. induction races as [|r races IH]; [done|].
  rewrite filter_cons. destruct (decide (matches horse_id r)) as [Hm|Hm]; [|done].
  by rewrite filter_cons, decide_True, IH.
Qed.

(** X10.  Races without an entry for the horse do not count: on a corpus
    whose result entries all carry an id, the analysis is the same as on
    the corpus reduced to the races that have an entry with the horse
    id. *)
Theorem analyze_ignores_other_races horse_id races :
  all_ids races →
  analyze_historical_performance horse_id races
  = analyze_historical_performance horse_id (matching_races horse_id races).
Proof.
  intros Hall.
  rewrite (analyze_all_ids _ _ Hall),
    (analyze_all_ids _ _ (all_ids_matching horse_id _ Hall)).
  cbv zeta. unfold positions_of. by rewrite !matching_races_idemp.
Qed.

Lemma analyze_ignores_other_races_witness :
  analyze_historical_performance "h1" unplaced_races
  = analyze_historical_performance "h1" (matching_races "h1" unplaced_races).
Proof.
  apply (analyze_ignores_other_races "h1" unplaced_races).
  repeat constructor; simpl; eauto.
Defined.

(** X11.  The average position of a returned profile stays within the
    range of the positions collected: when they all lie between two
    integers so does the average.  (An entry without position counts as
    0, so the lower bound cannot exceed 0 when there is one.) *)
Theorem analyze_average_bounds horse_id races d a (lo hi : Z) :
  analyze_historical_performance horse_id races = Return d →
  d !! "average_position" = Some (VFloat a) →
  Forall (λ p, lo ≤ p ≤ hi)%Z (positions_of horse_id races) →
  inject_Z lo <= a ∧ a <= inject_Z hi.
Proof.
  intros Hd Ha Hall.
  destruct (analyze_Return_cases _ _ _ Hd) as [[_ ->]|(_ & Hne & ->)];
    [discriminate Ha|].
  injection Ha as <-. apply np_mean_bounds.
  - intros Hnil. apply fmap_nil_inv in Hnil. done.
  - apply Forall_fmap. eapply Forall_impl; [exact Hall|].
    intros p [Hlo Hhi]. simpl. by rewrite <- !Zle_Qle.
Qed.

Lemma analyze_average_bounds_witness :
  ∃ d a, analyze_historical_performance "h1" two_races = Return d
       ∧ d !! "average_position" = Some (VFloat a)
       ∧ inject_Z 1 <= a ∧ a <= inject_Z 3.
Proof.
  eexists _, _. split; [reflexivity|]. split; [reflexivity|].
  apply (analyze_average_bounds "h1" two_races _ _ 1 3 eq_refl eq_refl).
  change (positions_of "h1" two_races) with [1%Z; 3%Z].
  constructor; [lia|]. constructor; [lia|]. constructor.
Defined.

Lemma matching_races_app horse_id races1 races2 :
  matching_races horse_id (races1 ++ races2)
  = matching_races horse_id races1 ++ matching_races horse_id races2.
Proof. apply filter_app. Qed.

Lemma positions_of_app horse_id races1 races2 :
  positions_of horse_id (races1 ++ races2)
  = positions_of horse_id races1 ++ positions_of horse_id races2.
Proof. unfold positions_of. by rewrite matching_races_app, bind_app. Qed.

Lemma slice_last_app {A} (n : nat) (l1 l2 : list A) :
  (n ≤ length l2)%nat → slice_last n (l1 ++ l2) = slice_last n l2.
Proof.
  intros Hn. unfold slice_last. rewrite length_app, drop_app_ge by lia.
  f_equal. lia.
Qed.

(** X12.  Once the newer part of a corpus reports five positions or more
    for the horse, the older part no longer shows in the recent form: the
    recent form of the whole corpus is that of its newer part, five
    positions long. *)
Theorem analyze_recent_form_local horse_id older newer :
  all_ids older → all_ids newer →
  (5 ≤ length (positions_of horse_id newer))%nat →
  ∃ d d' rf,
    analyze_historical_performance horse_id (older ++ newer) = Return d
    ∧ analyze_historical_performance horse_id newer = Return d'
    ∧ d !! "recent_form" = Some (VList rf)
    ∧ d' !! "recent_form" = Some (VList rf)
    ∧ rf = slice_last 5 (positions_of horse_id newer)
    ∧ length rf = 5%nat.
Proof.
  intros Hold Hnew Hfive.
  assert (all_ids (older ++ newer)) as Hall by by apply Forall_app.
  assert (matching_races horse_id newer ≠ []) as Hm.
  { intros Hnil. unfold positions_of in Hfive. rewrite Hnil in Hfive.
    simpl in Hfive. lia. }
  rewrite (analyze_all_ids _ _ Hall), (analyze_all_ids _ _ Hnew). cbv zeta.
  rewrite positions_of_app, matching_races_app.
  destruct (matching_races horse_id newer) as [|r hr] eqn:Hmn; [done|].
  assert (truthy (matching_races horse_id older ++ r :: hr) = true) as ->
    by by destruct (matching_races horse_id older).
  cbn [truthy negb].
  assert ((5 <=? length (positions_of horse_id older ++ positions_of horse_id newer))%nat
          = true) as Hle1 by (apply Nat.leb_le; rewrite length_app; lia).
  assert ((5 <=? length (positions_of horse_id newer))%nat = true) as Hle2
    by by apply Nat.leb_le.
  eexists _, _, (slice_last 5 (positions_of horse_id newer)).
  split; [reflexivity|]. split; [reflexivity|].
  split; [|split; [|split]].
  - change (Some (VList (if (5 <=? length (positions_of horse_id older
                                              ++ positions_of horse_id newer))%nat
                         then slice_last 5 (positions_of horse_id older
                                              ++ positions_of horse_id newer)
                         else positions_of horse_id older ++ positions_of horse_id newer))
            = Some (VList (slice_last 5 (positions_of horse_id newer)))).
    by rewrite Hle1, slice_last_app.
  - change (Some (VList (if (5 <=? length (positions_of horse_id newer))%nat
                         then slice_last 5 (positions_of horse_id newer)
                         else positions_of horse_id newer))
            = Some (VList (slice_last 5 (positions_of horse_id newer)))).
    by rewrite Hle2.
  - done.
  - unfold slice_last. rewrite length_drop. lia.
Qed.

Lemma analyze_recent_form_local_witness :
  ∃ d d' rf,
    analyze_historical_performance "h1" (older_races ++ newer_races) = Return d
    ∧ analyze_historical_performance "h1" newer_races = Return d'
    ∧ d !! "recent_form" = Some (VList rf)
    ∧ d' !! "recent_form" = Some (VList rf)
    ∧ rf = slice_last 5 (positions_of "h1" newer_races)
    ∧ length rf = 5%nat.
Proof.
  apply (analyze_recent_form_local "h1" older_races newer_races).
  - repeat constructor; simpl; eauto.
  - repeat constructor; simpl; eauto.
  - vm_compute. lia.
Defined.

(** The recent form of the longer history: the older positions 7 and 1 are
    pushed out by the five newer ones. *)
Example analyze_longer_history :
  (λ d, d !! "recent_form") <$> analyze_historical_performance "h1" (older_races ++ newer_races)
  = Return (Some (VList [2; 4; 3; 5; 6]%Z)).
Proof. reflexivity. Qed.

(** ** fetch_hkjc_data: what the report holds *)

(** Case analysis on what the calls answered. *)
Ltac by_attempts :=
  repeat (intros;
          match goal with
          | |- _ ↔ _ => split
          | H : _ ∨ _ |- _ => destruct H
          | H : ∃ _, _ |- _ => destruct H
          | H : _ ∧ _ |- _ => destruct H
          | H : Gateway.Got _ = Gateway.Got _ |- _ => injection H as <-
          | H : Gateway.Threw _ = Gateway.Threw _ |- _ => injection H as <-
          | H : Gateway.Got _ = Gateway.Threw _ |- _ => discriminate H
          | H : Gateway.Threw _ = Gateway.Got _ |- _ => discriminate H
          end);
  try done; try congruence.

Section FetchProperties.

Import Gateway.

Context (requests_get : string → Z → attempt response)
        (script_strings : string → attempt (list (option string)))
        (findall : string → list string)
        (lower : string → string).

Local Abbreviation names_api := (names_api lower).
Local Abbreviation collect_endpoints := (collect_endpoints findall lower).
Local Abbreviation fetch_hkjc_data :=
  (fetch_hkjc_data requests_get script_strings findall lower).

Lemma elem_of_filter_bool {A} (f : A → bool) (l : list A) (x : A) :
  x ∈ List.filter f l ↔ x ∈ l ∧ f x = true.
Proof. rewrite !list_elem_of_In. apply filter_In. Qed.

(** Where a collected endpoint comes from. *)
Lemma elem_of_collect_endpoints scripts acc u :
  u ∈ collect_endpoints scripts acc ↔
  u ∈ acc ∨ ∃ s, Some s ∈ scripts ∧ s ≠ "" ∧ u ∈ findall s ∧ names_api u = true.
Proof.
  revert acc. induction scripts as [|script scripts IH]; intros acc; simpl.
  - split; [by left|]. intros [?|(s & []%elem_of_nil & _)]. done.
  - assert (∀ acc', u ∈ collect_endpoints scripts acc' →
              (u ∈ acc' ∨ ∃ s, Some s ∈ scripts ∧ s ≠ "" ∧ u ∈ findall s
                                ∧ names_api u = true)) as Hfwd
      by (intros acc'; apply IH).
    destruct script as [s|]; [destruct (nonempty s) eqn:Hs|].
    + rewrite IH, elem_of_app, elem_of_filter_bool.
      split.
      * intros [[?|[? ?]]|(s' & ? & ? & ? & ?)]; [by left| |].
        -- right. exists s. split; [by left|]. split; [by intros ->|done].
        -- right. exists s'. split; [by right|done].
      * intros [?|(s' & Hin & Hne & Hu & Hn)]; [by left; left|].
        apply elem_of_cons in Hin as [[= <-]|Hin].
        -- left. by right.
        -- right. by exists s'.
    + rewrite IH. split.
      * intros [?|(s' & ? & ? & ? & ?)]; [by left|].
        right. exists s'. split; [by right|done].
      * intros [?|(s' & Hin & Hne & Hu & Hn)]; [by left|].
        apply elem_of_cons in Hin as [[= <-]|Hin].
        -- by destruct s'.
        -- right. by exists s'.
    + rewrite IH. split.
      * intros [?|(s' & ? & ? & ? & ?)]; [by left|].
        right. exists s'. split; [by right|done].
      * intros [?|(s' & Hin & Hne & Hu & Hn)]; [by left|].
        apply elem_of_cons in Hin as [[=]|Hin]. right. by exists s'.
Qed.

Lemma size_list_to_set_le (l : list string) :
  (size (list_to_set l : gset string) ≤ length l)%nat.
Proof.
  induction l as [|x l IH]; cbn [list_to_set length]; [by rewrite size_empty|].
  rewrite size_union_alt, size_singleton.
  assert (size (list_to_set l ∖ {[x]} : gset string)
          ≤ size (list_to_set l : gset string))%nat as Hsub
    by (apply subseteq_size; set_solver).
  lia.
Qed.

(** X13.  When the site answers with status 200 and the page is parsed,
    the endpoints reported are the distinct urls among the first five
    collected (so at most five, and fewer than that when the first five
    repeat one another, whatever comes after them); each of them was found
    by the scanner in a non-empty script string and has "api" or "json" in
    its lower-cased form. *)
Theorem fetch_hkjc_data_endpoints date_range resp scripts :
  requests_get racing_url 10 = Got resp →
  status_code resp = 200%Z →
  script_strings (text resp) = Got scripts →
  ∃ urls : gset string,
    findings (fetch_hkjc_data date_range) !! "potential_api_endpoints"
      = Some (FUrls urls)
    ∧ urls = list_to_set (take 5 (collect_endpoints scripts []))
    ∧ (size urls ≤ 5)%nat
    ∧ ∀ u, u ∈ urls →
        names_api u = true
        ∧ ∃ s, Some s ∈ scripts ∧ s ≠ "" ∧ u ∈ findall s.
Proof.
  intros Hget Hcode Hparse. unfold Gateway.fetch_hkjc_data.
  rewrite Hget, Hcode, Hparse. cbn [Z.eqb Pos.eqb findings].
  eexists. split; [reflexivity|]. split; [reflexivity|]. split.
  - etrans; [apply size_list_to_set_le|]. rewrite length_take. lia.
  - intros u Hu%elem_of_list_to_set.
    assert (u ∈ collect_endpoints scripts []) as Hin
      by by apply (subseteq_take 5).
    apply elem_of_collect_endpoints in Hin as [[]%elem_of_nil|(s & ? & ? & ? & ?)].
    split; [done|]. by exists s.
Qed.

(** X14.  The status of the report is one of three, each standing for one
    way the call went: ["investigation_complete"] when the site answered
    200 and the page was parsed, ["access_denied"] when it answered
    anything else, ["error"] when the request or the parser raised.  Only
    the first carries findings and a recommendation; the other two have
    empty findings, and their message holds the status code, respectively
    the text of the exception. *)
Theorem fetch_hkjc_data_status date_range :
  let r := fetch_hkjc_data date_range in
  (status r = "investigation_complete"
     ↔ ∃ resp scripts, requests_get racing_url 10 = Got resp
         ∧ status_code resp = 200%Z
         ∧ script_strings (text resp) = Got scripts)
  ∧ (status r = "access_denied"
     ↔ ∃ resp, requests_get racing_url 10 = Got resp
         ∧ status_code resp ≠ 200%Z)
  ∧ (status r = "error"
     ↔ (∃ e, requests_get racing_url 10 = Threw e)
       ∨ (∃ resp e, requests_get racing_url 10 = Got resp
            ∧ status_code resp = 200%Z
            ∧ script_strings (text resp) = Threw e))
  ∧ (findings r = ∅ ↔ status r ≠ "investigation_complete")
  ∧ (is_Some (recommendation r) ↔ status r = "investigation_complete")
  ∧ (∀ resp, requests_get racing_url 10 = Got resp → status_code resp ≠ 200%Z →
       message r = "HKJC site returned status " +:+ pretty (status_code resp))
  ∧ (∀ e, status r = "error" →
       (requests_get racing_url 10 = Threw e
        ∨ ∃ resp, requests_get racing_url 10 = Got resp
            ∧ script_strings (text resp) = Threw e) →
       message r = "Error accessing HKJC: " +:+ e).
Proof.
  intros r. subst r. unfold Gateway.fetch_hkjc_data.
  assert (∀ m : gmap string finding,
            <["main_site_accessible" := FBool true]> m ≠ ∅) as Hfull
    by (intros m; apply insert_non_empty).
  destruct (requests_get racing_url 10) as [resp|e0] eqn:Hget.
  - destruct (status_code resp =? 200)%Z eqn:Hcode.
    + apply Z.eqb_eq in Hcode.
      destruct (script_strings (text resp)) as [scripts|e1] eqn:Hparse; cbn;
        split_and!; try naive_solver; by_attempts.
    + apply Z.eqb_neq in Hcode. cbn. split_and!; try naive_solver; by_attempts.
  - cbn. split_and!; try naive_solver; by_attempts.
Qed.

End FetchProperties.

Lemma fetch_hkjc_data_endpoints_witness :
  ∃ urls : gset string,
    Gateway.findings
      (Gateway.fetch_hkjc_data sample_get sample_scripts sample_findall sample_lower None)
      !! "potential_api_endpoints" = Some (Gateway.FUrls urls)
    ∧ urls = list_to_set
               (take 5 (Gateway.collect_endpoints sample_findall sample_lower
                          [Some "first"; None; Some ""; Some "third"] []))
    ∧ (size urls ≤ 5)%nat
    ∧ ∀ u, u ∈ urls →
        Gateway.names_api sample_lower u = true
        ∧ ∃ s, Some s ∈ [Some "first"; None; Some ""; Some "third"]
             ∧ s ≠ "" ∧ u ∈ sample_findall s.
Proof.
  apply (fetch_hkjc_data_endpoints sample_get sample_scripts sample_findall
           sample_lower None
           {| Gateway.status_code := 200; Gateway.text := "page" |}).
  - reflexivity.
  - reflexivity.
  - reflexivity.
Defined.

(** On the sample page three distinct endpoints are collected, but the
    first five collected are the same url: one endpoint is reported. *)
Example fetch_hkjc_data_sample :
  Gateway.collect_endpoints sample_findall sample_lower
    [Some "first"; None; Some ""; Some "third"] []
  = [ "https://a.hk/api/1"; "https://a.hk/api/1"; "https://a.hk/api/1";
      "https://a.hk/api/1"; "https://a.hk/api/1"; "https://b.hk/data.json";
      "https://c.hk/api/2" ]
  ∧ Gateway.findings
      (Gateway.fetch_hkjc_data sample_get sample_scripts sample_findall sample_lower None)
      !! "potential_api_endpoints"
    = Some (Gateway.FUrls {[ "https://a.hk/api/1" ]}).
Proof. split; vm_compute; reflexivity. Qed.

Lemma fetch_hkjc_data_status_witness :
  Gateway.status
    (Gateway.fetch_hkjc_data sample_denied sample_scripts sample_findall sample_lower None)
  = "access_denied"
  ∧ Gateway.message
      (Gateway.fetch_hkjc_data sample_denied sample_scripts sample_findall sample_lower None)
    = "HKJC site returned status 403".
Proof.
  destruct (fetch_hkjc_data_status sample_denied sample_scripts sample_findall
              sample_lower None) as (_ & Hdenied & _ & _ & _ & Hmessage & _).
  split.
  - apply Hdenied. eexists. split; [reflexivity | discriminate].
  - apply (Hmessage {| Gateway.status_code := 403; Gateway.text := "" |});
      [reflexivity | discriminate].
Defined.
